(** * Black-Scholes analytics engine: pricing, aggregation, scenarios,
      P&L attribution and volatility-surface interpolation.

    A shallow embedding of the TypeScript sources
    ([lib/utils/blackScholes.ts], [components/StressTest.tsx],
    [components/WhatIfPanel.tsx], [components/PnLAttribution.tsx] and the
    volatility-surface component) together with the properties stated for
    them.

    JavaScript numbers are modelled by [num]: a finite value is an exact
    real (rounding and overflow are abstracted away), and the three special
    values [Infinity], [-Infinity] and [NaN] are kept, with the IEEE rules
    for them, because the sources reach them (a division by [sigma *
    sqrt 0], the falsy test of [||]).  Zero is unsigned: a division of a
    non-zero finite value by zero takes the denominator as [+0]. *)

From Stdlib Require Import Reals Lra Psatz List Bool Arith ZArith Lia String.
From Stdlib Require Import Sorting.Sorted Sorting.Permutation.
Import ListNotations.

Local Open Scope R_scope.

(** ** JavaScript numbers *)

Inductive num : Type :=
| Fin (r : R)
| PosInf
| NegInf
| NaN.

Coercion Fin : R >-> num.

Definition Rltb (a b : R) : bool := if Rlt_dec a b then true else false.
Definition Reqb (a b : R) : bool := if Req_dec_T a b then true else false.

(** Sign of a value: [Gt] positive, [Lt] negative, [Eq] zero; [None] for NaN. *)
Definition Rsign (r : R) : comparison :=
  if Rlt_dec 0 r then Gt else if Rlt_dec r 0 then Lt else Eq.

Definition sign_of (x : num) : option comparison :=
  match x with
  | Fin r => Some (Rsign r)
  | PosInf => Some Gt
  | NegInf => Some Lt
  | NaN => None
  end.

Definition sign_mul (a b : comparison) : comparison :=
  match a, b with
  | Eq, _ | _, Eq => Eq
  | Gt, Gt | Lt, Lt => Gt
  | Gt, Lt | Lt, Gt => Lt
  end.

(** The infinity of a given sign; a zero sign stands for [0 * Infinity]
    or [0 / 0], which are NaN. *)
Definition inf_of_sign (c : comparison) : num :=
  match c with Gt => PosInf | Lt => NegInf | Eq => NaN end.

Definition neg (x : num) : num :=
  match x with
  | Fin r => Fin (- r)
  | PosInf => NegInf
  | NegInf => PosInf
  | NaN => NaN
  end.

Definition add (x y : num) : num :=
  match x, y with
  | Fin a, Fin b => Fin (a + b)
  | NaN, _ | _, NaN => NaN
  | PosInf, NegInf | NegInf, PosInf => NaN
  | PosInf, _ | _, PosInf => PosInf
  | NegInf, _ | _, NegInf => NegInf
  end.

Definition sub (x y : num) : num := add x (neg y).

Definition mul (x y : num) : num :=
  match x, y with
  | Fin a, Fin b => Fin (a * b)
  | _, _ =>
      match sign_of x, sign_of y with
      | Some a, Some b => inf_of_sign (sign_mul a b)
      | _, _ => NaN
      end
  end.

Definition div (x y : num) : num :=
  match x, y with
  | Fin a, Fin b =>
      if Req_dec_T b 0 then inf_of_sign (Rsign a) else Fin (a / b)
  | NaN, _ | _, NaN => NaN
  | Fin _, (PosInf | NegInf) => Fin 0
  | (PosInf | NegInf), (PosInf | NegInf) => NaN
  | PosInf, Fin b => if Rlt_dec b 0 then NegInf else PosInf
  | NegInf, Fin b => if Rlt_dec b 0 then PosInf else NegInf
  end.

(** [x > y], [x < y], [x <= y] and [x === y]: every comparison with NaN
    is false. *)
Definition num_lt (x y : num) : bool :=
  match x, y with
  | Fin a, Fin b => Rltb a b
  | NaN, _ | _, NaN => false
  | _, NegInf => false
  | PosInf, _ => false
  | NegInf, _ => true
  | _, PosInf => true
  end.

Definition num_gt (x y : num) : bool := num_lt y x.

Definition num_seq (x y : num) : bool :=
  match x, y with
  | Fin a, Fin b => Reqb a b
  | PosInf, PosInf | NegInf, NegInf => true
  | _, _ => false
  end.

Definition num_le (x y : num) : bool := num_lt x y || num_seq x y.

(** Truthiness of a number: [0] and [NaN] are falsy. *)
Definition truthy (x : num) : bool :=
  match x with
  | Fin r => negb (Reqb r 0)
  | NaN => false
  | _ => true
  end.

(** [a || b] on numbers. *)
Definition or_else (a b : num) : num := if truthy a then a else b.

Definition Math_abs (x : num) : num :=
  match x with
  | Fin r => Fin (Rabs r)
  | PosInf | NegInf => PosInf
  | NaN => NaN
  end.

Definition Math_exp (x : num) : num :=
  match x with
  | Fin r => Fin (exp r)
  | PosInf => PosInf
  | NegInf => Fin 0
  | NaN => NaN
  end.

Definition Math_log (x : num) : num :=
  match x with
  | Fin r =>
      if Rlt_dec 0 r then Fin (ln r)
      else if Rlt_dec r 0 then NaN else NegInf
  | PosInf => PosInf
  | NegInf | NaN => NaN
  end.

Definition Math_sqrt (x : num) : num :=
  match x with
  | Fin r => if Rlt_dec r 0 then NaN else Fin (sqrt r)
  | PosInf => PosInf
  | NegInf | NaN => NaN
  end.

Definition Math_max (x y : num) : num :=
  match x, y with
  | NaN, _ | _, NaN => NaN
  | _, _ => if num_lt x y then y else x
  end.

Definition Math_PI : num := Fin PI.

Declare Scope num_scope.
Delimit Scope num_scope with num.
Bind Scope num_scope with num.
Infix "+" := add : num_scope.
Infix "-" := sub : num_scope.
Infix "*" := mul : num_scope.
Infix "/" := div : num_scope.
Notation "- x" := (neg x) : num_scope.
Infix ">?" := num_gt (at level 70) : num_scope.
Infix "<?" := num_lt (at level 70) : num_scope.
Infix "<=?" := num_le (at level 70) : num_scope.
Infix "===" := num_seq (at level 70) : num_scope.
Infix "||" := or_else : num_scope.

(** ** types/option.ts *)

Inductive OptionType := Call | Put.

Record Option := mkOption {
  ticker : string;
  type : OptionType;
  spotPrice : num;
  strikePrice : num;
  timeToExpiry : num;
  volatility : num;
  riskFreeRate : num;
  quantity : num
}.

Record OptionGreeks := mkGreeks {
  delta : num;
  gamma : num;
  theta : num;
  vega : num;
  rho : num
}.

(** [OptionMetrics extends Option]: the contract's own fields are kept in
    [contract]. *)
Record OptionMetrics := mkMetrics {
  contract : Option;
  price : num;
  greeks : OptionGreeks;
  totalValue : num
}.

(** The field [totalValue] of a portfolio is [portfolioValue] here, the
    name being taken by the field of a position. *)
Record Portfolio := mkPortfolio {
  options : list OptionMetrics;
  portfolioValue : num;
  aggregateGreeks : OptionGreeks
}.

(** ** lib/utils/blackScholes.ts *)

Definition normalCDF (x : num) : num :=
  let t := (1 / (1 + 0.2316419 * Math_abs x))%num in
  let d := (0.3989423 * Math_exp (- x * x / 2))%num in
  let p := (d * t * (0.3193815 + t * (-0.3565638 + t * (1.781478
              + t * (-1.821256 + t * 1.330274)))))%num in
  if (x >? 0)%num then (1 - p)%num else p.

Definition normalPDF (x : num) : num :=
  (Math_exp (-0.5 * x * x) / Math_sqrt (2 * Math_PI))%num.

Definition calculateD1D2 (S K T r sigma : num) : num * num :=
  let d1 := ((Math_log (S / K) + (r + sigma * sigma / 2) * T)
             / (sigma * Math_sqrt T))%num in
  let d2 := (d1 - sigma * Math_sqrt T)%num in
  (d1, d2).

Definition calculateOptionPrice (option : Option) : num :=
  let S := spotPrice option in
  let K := strikePrice option in
  let T := timeToExpiry option in
  let r := riskFreeRate option in
  let sigma := volatility option in
  let '(d1, d2) := calculateD1D2 S K T r sigma in
  let discountFactor := Math_exp (- r * T)%num in
  match type option with
  | Call => (S * normalCDF d1 - K * discountFactor * normalCDF d2)%num
  | Put => (K * discountFactor * normalCDF (- d2)
            - S * normalCDF (- d1))%num
  end.

Definition calculateGreeks (option : Option) : OptionGreeks :=
  let S := spotPrice option in
  let K := strikePrice option in
  let T := timeToExpiry option in
  let r := riskFreeRate option in
  let sigma := volatility option in
  let '(d1, d2) := calculateD1D2 S K T r sigma in
  let discountFactor := Math_exp (- r * T)%num in
  let sign : num := match type option with Call => 1 | Put => -1 end in
  let delta := (sign * normalCDF (sign * d1))%num in
  let gamma := (normalPDF d1 / (S * sigma * Math_sqrt T))%num in
  let theta := (- S * sigma * normalPDF d1 / (2 * Math_sqrt T)
                - sign * r * K * discountFactor * normalCDF (sign * d2))%num in
  let vega := (S * Math_sqrt T * normalPDF d1)%num in
  let rho := (sign * K * T * discountFactor * normalCDF (sign * d2))%num in
  {| delta := delta; gamma := gamma; theta := theta; vega := vega;
     rho := rho |}.

(** [{...option, price, greeks, totalValue}]: the three derived fields
    override whatever the argument carried under those names. *)
Definition calculateOptionMetrics (option : Option) : OptionMetrics :=
  let price := calculateOptionPrice option in
  let greeks := calculateGreeks option in
  let totalValue := (price * quantity option)%num in
  {| contract := option; price := price; greeks := greeks;
     totalValue := totalValue |}.

(** The keys of an [OptionGreeks] object, in the order [Object.keys]
    lists them (insertion order of the literal). *)
Inductive greek := Delta | Gamma | Theta | Vega | Rho.

Definition greek_keys : list greek := [Delta; Gamma; Theta; Vega; Rho].

Definition get_greek (g : OptionGreeks) (k : greek) : num :=
  match k with
  | Delta => delta g
  | Gamma => gamma g
  | Theta => theta g
  | Vega => vega g
  | Rho => rho g
  end.

Definition set_greek (g : OptionGreeks) (k : greek) (v : num)
  : OptionGreeks :=
  match k with
  | Delta => {| delta := v; gamma := gamma g; theta := theta g;
                vega := vega g; rho := rho g |}
  | Gamma => {| delta := delta g; gamma := v; theta := theta g;
                vega := vega g; rho := rho g |}
  | Theta => {| delta := delta g; gamma := gamma g; theta := v;
                vega := vega g; rho := rho g |}
  | Vega => {| delta := delta g; gamma := gamma g; theta := theta g;
               vega := v; rho := rho g |}
  | Rho => {| delta := delta g; gamma := gamma g; theta := theta g;
              vega := vega g; rho := v |}
  end.

Definition zeroGreeks : OptionGreeks :=
  {| delta := 0; gamma := 0; theta := 0; vega := 0; rho := 0 |}.

(** One pass of the inner [forEach]: [aggregateGreeks[greek] +=
    opt.greeks[greek] * opt.quantity] for every key. *)
Definition accumulate_greeks (agg : OptionGreeks) (opt : OptionMetrics)
  : OptionGreeks :=
  fold_left
    (fun agg k =>
       set_greek agg k
         (get_greek agg k
          + get_greek (greeks opt) k * quantity (contract opt))%num)
    greek_keys agg.

Definition calculatePortfolioMetrics (opts : list Option) : Portfolio :=
  let optionMetrics := map calculateOptionMetrics opts in
  let total :=
    fold_left (fun sum opt => (sum + totalValue opt)%num) optionMetrics
      (Fin 0) in
  let agg := fold_left accumulate_greeks optionMetrics zeroGreeks in
  {| options := optionMetrics; portfolioValue := total;
     aggregateGreeks := agg |}.

(** The second pricing routine of the same file.  [jStat.normal.cdf] and
    [jStat.normal.pdf] belong to an external package; they are taken as
    parameters. *)
Record BlackScholesInputs := mkInputs {
  stockPrice : num;
  bs_strikePrice : num;
  timeToMaturity : num;
  bs_volatility : num;
  bs_riskFreeRate : num;
  isCall : bool
}.

Record BlackScholesOutputs := mkOutputs {
  optionPrice : num;
  out_d1 : num;
  out_d2 : num;
  out_delta : num;
  out_gamma : num;
  out_theta : num;
  out_vega : num;
  out_rho : num
}.

Section JStat.

Variable jStat_normal_cdf : num -> num -> num -> num.
Variable jStat_normal_pdf : num -> num -> num -> num.

Definition calculateBlackScholes (inputs : BlackScholesInputs)
  : BlackScholesOutputs :=
  let S := stockPrice inputs in
  let K := bs_strikePrice inputs in
  let T := timeToMaturity inputs in
  let v := bs_volatility inputs in
  let r := bs_riskFreeRate inputs in
  let isCall := isCall inputs in
  let d1 := ((Math_log (S / K) + (r + v * v / 2) * T)
             / (v * Math_sqrt T))%num in
  let d2 := (d1 - v * Math_sqrt T)%num in
  let Nd1 := jStat_normal_cdf (if isCall then d1 else (- d1)%num) 0 1 in
  let Nd2 := jStat_normal_cdf (if isCall then d2 else (- d2)%num) 0 1 in
  let Npd1 := jStat_normal_pdf d1 0 1 in
  let optionPrice :=
    if isCall
    then (S * Nd1 - K * Math_exp (- r * T) * Nd2)%num
    else (K * Math_exp (- r * T) * (1 - Nd2) - S * (1 - Nd1))%num in
  let delta := if isCall then Nd1 else (Nd1 - 1)%num in
  let gamma := (Npd1 / (S * v * Math_sqrt T))%num in
  let theta :=
    (- (S * v * Npd1) / (2 * Math_sqrt T)
     - (if isCall then 1 else -1) * r * K * Math_exp (- r * T) * Nd2)%num in
  let vega := (S * Math_sqrt T * Npd1)%num in
  let rho :=
    ((if isCall then 1 else -1) * K * T * Math_exp (- r * T) * Nd2)%num in
  {| optionPrice := optionPrice; out_d1 := d1; out_d2 := d2;
     out_delta := delta; out_gamma := gamma; out_theta := theta;
     out_vega := vega; out_rho := rho |}.

End JStat.

(** ** components/StressTest.tsx *)

Record StressParams := mkStress {
  spotPriceChange : num;
  volatilityChange : num;
  rateChange : num
}.

(** The object spread [{...option, spotPrice: .., volatility: ..,
    riskFreeRate: ..}] of one position.  The stale [price], [greeks] and
    [totalValue] that the spread copies are overwritten by
    [calculateOptionMetrics], so only the contract fields are kept. *)
Definition stressOption (stressParams : StressParams)
  (option : OptionMetrics) : Option :=
  let o := contract option in
  {| ticker := ticker o;
     type := type o;
     spotPrice := (spotPrice o * (1 + spotPriceChange stressParams / 100))%num;
     strikePrice := strikePrice o;
     timeToExpiry := timeToExpiry o;
     volatility :=
       (volatility o * (1 + volatilityChange stressParams / 100))%num;
     riskFreeRate := (riskFreeRate o + rateChange stressParams / 100)%num;
     quantity := quantity o |}.

Definition runStressTest (portfolio : Portfolio)
  (stressParams : StressParams) : Portfolio :=
  let stressedOptions := map (stressOption stressParams) (options portfolio) in
  calculatePortfolioMetrics stressedOptions.

(** ** components/WhatIfPanel.tsx *)

Record TuningParams := mkTuning {
  volatilityMultiplier : num;
  timeDecayDays : num;
  rateShift : num
}.

Definition adjustOption (params : TuningParams) (option : OptionMetrics)
  : Option :=
  let o := contract option in
  {| ticker := ticker o;
     type := type o;
     spotPrice := spotPrice o;
     strikePrice := strikePrice o;
     timeToExpiry :=
       Math_max 0 (timeToExpiry o - timeDecayDays params / 365)%num;
     volatility := (volatility o * volatilityMultiplier params)%num;
     riskFreeRate := (riskFreeRate o + rateShift params / 100)%num;
     quantity := quantity o |}.

(** The body of the debounced callback: the portfolio handed to
    [onPortfolioChange]. *)
Definition whatIfPortfolio (portfolio : Portfolio) (params : TuningParams)
  : Portfolio :=
  let adjustedOptions := map (adjustOption params) (options portfolio) in
  calculatePortfolioMetrics adjustedOptions.

(** ** Completions *)

(** A JavaScript evaluation either returns a value or throws. *)
Inductive completion (A : Type) : Type :=
| Normal (a : A)
| Throw (message : string).

Arguments Normal {A} a.
Arguments Throw {A} message.

Definition bind {A B} (c : completion A) (k : A -> completion B)
  : completion B :=
  match c with
  | Normal a => k a
  | Throw m => Throw m
  end.

Notation "x <- c ;; k" := (bind c (fun x => k))
  (at level 61, c at next level, right associativity).

(** ** components/PnLAttribution.tsx *)

Record PnLComponents := mkPnL {
  pnl_delta : num;
  pnl_gamma : num;
  pnl_theta : num;
  pnl_vega : num;
  pnl_rho : num;
  unexplained : num;
  total : num
}.

(** [arr.forEach((x, index) => ..)] over a state [St]. *)
Fixpoint forEach_from {A St : Type} (f : St -> A -> nat -> St)
  (l : list A) (index : nat) (st : St) : St :=
  match l with
  | [] => st
  | x :: l' => forEach_from f l' (S index) (f st x index)
  end.

Definition forEach {A St : Type} (f : St -> A -> nat -> St) (l : list A)
  (st : St) : St :=
  forEach_from f l 0%nat st.

(** The callback of [portfolio.options.forEach]. *)
Definition attributionStep (previousOptions : list OptionMetrics)
  (timeElapsed : num) (attribution : PnLComponents)
  (currentOption : OptionMetrics) (index : nat) : PnLComponents :=
  match nth_error previousOptions index with
  | None => attribution
  | Some prevOption =>
      let cur := contract currentOption in
      let prev := contract prevOption in
      let spotChange := (spotPrice cur - spotPrice prev)%num in
      let volChange := (volatility cur - volatility prev)%num in
      let rateChange := (riskFreeRate cur - riskFreeRate prev)%num in
      {| pnl_delta :=
           (pnl_delta attribution
            + delta (greeks prevOption) * spotChange * quantity cur)%num;
         pnl_theta :=
           (pnl_theta attribution
            + theta (greeks prevOption) * (timeElapsed / 365)
              * quantity cur)%num;
         pnl_vega :=
           (pnl_vega attribution
            + vega (greeks prevOption) * volChange * quantity cur)%num;
         pnl_rho :=
           (pnl_rho attribution
            + rho (greeks prevOption) * rateChange * quantity cur)%num;
         pnl_gamma :=
           (pnl_gamma attribution
            + 0.5 * gamma (greeks prevOption) * spotChange * spotChange
              * quantity cur)%num;
         unexplained := unexplained attribution;
         total := total attribution |}
  end.

(** The [useMemo] callback of the component; [None] is its [null] and a
    missing [timeElapsed] takes the default [1]. *)
Definition pnlAttribution (portfolio : Portfolio)
  (previousPortfolio : option Portfolio) (timeElapsed : option num)
  : completion (option PnLComponents) :=
  let timeElapsed := match timeElapsed with Some t => t | None => Fin 1 end in
  match previousPortfolio with
  | None => Normal None
  | Some previousPortfolio =>
      let attribution :=
        {| pnl_delta := 0; pnl_gamma := 0; pnl_theta := 0; pnl_vega := 0;
           pnl_rho := 0; unexplained := 0;
           total := (portfolioValue portfolio
                     - portfolioValue previousPortfolio)%num |} in
      let attribution :=
        forEach (attributionStep (options previousPortfolio) timeElapsed)
          (options portfolio) attribution in
      Normal (Some
        {| pnl_delta := pnl_delta attribution;
           pnl_gamma := pnl_gamma attribution;
           pnl_theta := pnl_theta attribution;
           pnl_vega := pnl_vega attribution;
           pnl_rho := pnl_rho attribution;
           unexplained :=
             (total attribution
              - (pnl_delta attribution + pnl_gamma attribution
                 + pnl_theta attribution + pnl_vega attribution
                 + pnl_rho attribution))%num;
           total := total attribution |})
  end.

(** ** The volatility-surface component *)

Record VolSurfaceData := mkSurface {
  strikes : list num;
  maturities : list num;
  volatilities : list (list num)
}.

(** [arr[i]] used as a number: an index outside the array gives
    [undefined], which every arithmetic operation and comparison turns
    into NaN. *)
Definition get (arr : list num) (i : Z) : num :=
  if (i <? 0)%Z then NaN else nth (Z.to_nat i) arr NaN.

(** [rows[j]], an array or [undefined]. *)
Definition get_row (rows : list (list num)) (j : Z) : option (list num) :=
  if (j <? 0)%Z then None else nth_error rows (Z.to_nat j).

(** [rows[j][i]]: indexing [undefined] throws a TypeError. *)
Definition get_cell (rows : list (list num)) (j i : Z) : completion num :=
  match get_row rows j with
  | Some row => Normal (get row i)
  | None => Throw "TypeError: Cannot read properties of undefined"
  end.

Definition length_of (arr : list num) : Z := Z.of_nat (List.length arr).

(** [while (i < arr.length - 1 && arr[i + 1] <= v) i++], run for at most
    [fuel] iterations. *)
Fixpoint bracket_loop (fuel : nat) (arr : list num) (v : num) (i : Z) : Z :=
  match fuel with
  | O => i
  | S fuel' =>
      if (i <? length_of arr - 1)%Z && (get arr (i + 1) <=? v)%num
      then bracket_loop fuel' arr v (i + 1)
      else i
  end.

(** The loop started at [0]; it leaves after at most [arr.length]
    iterations (lemma [bracket_loop_fuel]). *)
Definition bracket (arr : list num) (v : num) : Z :=
  bracket_loop (List.length arr) arr v 0.

(** [Math.min(i1 + 1, arr.length - 1)]. *)
Definition upper_index (arr : list num) (i1 : Z) : Z :=
  Z.min (i1 + 1) (length_of arr - 1).

(** The fractional weight along one axis,
    [(v - arr[i1]) / (arr[i2] - arr[i1] || 1)]. *)
Definition weight (arr : list num) (v : num) : num :=
  let i1 := bracket arr v in
  let i2 := upper_index arr i1 in
  ((v - get arr i1) / ((get arr i2 - get arr i1) || 1))%num.

Definition interpolateVol (strike maturity : num) (data : VolSurfaceData)
  : completion num :=
  let strikes := strikes data in
  let maturities := maturities data in
  let volatilities := volatilities data in
  let i1 := bracket strikes strike in
  let i2 := upper_index strikes i1 in
  let j1 := bracket maturities maturity in
  let j2 := upper_index maturities j1 in
  let x := weight strikes strike in
  let y := weight maturities maturity in
  v11 <- get_cell volatilities j1 i1 ;;
  v12 <- get_cell volatilities j1 i2 ;;
  v21 <- get_cell volatilities j2 i1 ;;
  v22 <- get_cell volatilities j2 i2 ;;
  let interpolated :=
    (v11 * (1 - x) * (1 - y)
     + v12 * x * (1 - y)
     + v21 * (1 - x) * y
     + v22 * x * y)%num in
  Normal interpolated.

(** One parsed CSV row. *)
Record VolRow := mkRow {
  row_strike : num;
  row_maturity : num;
  row_volatility : num
}.

(** SameValueZero, the equality of [Set]: NaN equals NaN. *)
Definition same_value_zero (x y : num) : bool :=
  match x, y with
  | NaN, NaN => true
  | _, _ => (x === y)%num
  end.

(** [[...new Set(arr)]]: the first occurrence of every value, in order. *)
Fixpoint set_values (arr : list num) : list num :=
  match arr with
  | [] => []
  | x :: arr' =>
      x :: filter (fun y => negb (same_value_zero x y)) (set_values arr')
  end.

(** [arr.sort(cmp)], as a stable insertion sort: [x] goes before the first
    element [y] with [cmp(x, y) < 0]. *)
Fixpoint sort_insert (cmp : num -> num -> num) (x : num) (l : list num)
  : list num :=
  match l with
  | [] => [x]
  | y :: l' =>
      if (cmp x y <? 0)%num then x :: y :: l' else y :: sort_insert cmp x l'
  end.

Definition sort (cmp : num -> num -> num) (arr : list num) : list num :=
  fold_left (fun sorted x => sort_insert cmp x sorted) arr [].

(** The grid built in [onDrop] from the parsed rows. *)
Definition buildSurface (data : list VolRow) : VolSurfaceData :=
  let strikes :=
    sort (fun a b => (a - b)%num) (set_values (map row_strike data)) in
  let maturities :=
    sort (fun a b => (a - b)%num) (set_values (map row_maturity data)) in
  let volatilities :=
    map (fun mat =>
           map (fun strike =>
                  match find (fun d => (row_strike d === strike)%num
                                       && (row_maturity d === mat)%num) data
                  with
                  | Some point => row_volatility point
                  | None => Fin 0
                  end)
               strikes)
        maturities in
  {| strikes := strikes; maturities := maturities;
     volatilities := volatilities |}.

(** ** components/GreeksSurfaceViewer.tsx *)






(** [Array.from({ length: n }, (_, i) => f(i))]. *)
Definition Array_from (n : nat) (f : num -> num) : list num :=
  map (fun i => f (Fin (INR i))) (seq 0 n).

Record SurfacePoints := mkPoints {
  sp_strikes : list num;
  sp_times : list num
}.



(** The [useMemo] that lays out the strike and time axes; [None] is its
    [null], returned for a portfolio without positions. *)
Definition generateSurfacePoints (portfolio : Portfolio)
  : option SurfacePoints :=
  match nth_error (options portfolio) 0 with
  | None => None
  | Some baseOption =>
      let spotPrice := spotPrice (contract baseOption) in
      let minStrike := (spotPrice * 0.7)%num in
      let maxStrike := (spotPrice * 1.3)%num in
      let strikePoints : num := 40 in
      let strikes :=
        Array_from 40
          (fun i => (minStrike + (maxStrike - minStrike)
                                 * (i / (strikePoints - 1)))%num) in
      let timePoints : num := 40 in
      let times :=
        Array_from 40
          (fun i => (0.1 + (2 - 0.1) * (i / (timePoints - 1)))%num) in
      Some {| sp_strikes := strikes; sp_times := times |}
  end.



(** ** lib/utils/fileParser.ts *)

(** The values a parsed row can hold; [JObject] stands for any object or
    array. *)
Inductive jsval :=
| JUndefined
| JNull
| JBool (b : bool)
| JNumber (n : num)
| JString (s : string)
| JObject.

Inductive exn :=
| ValidationError (message : string)
| OtherError (message : string).

Inductive result (A : Type) : Type :=
| Ok (a : A)
| Raise (e : exn).

Arguments Ok {A} a.
Arguments Raise {A} e.

Definition and_then {A B} (r : result A) (k : A -> result B) : result B :=
  match r with
  | Ok a => k a
  | Raise e => Raise e
  end.

Inductive field :=
| F_ticker | F_type | F_spotPrice | F_strikePrice | F_timeToExpiry
| F_volatility | F_riskFreeRate | F_quantity.

Definition field_name (f : field) : string :=
  match f with
  | F_ticker => "ticker"
  | F_type => "type"
  | F_spotPrice => "spotPrice"
  | F_strikePrice => "strikePrice"
  | F_timeToExpiry => "timeToExpiry"
  | F_volatility => "volatility"
  | F_riskFreeRate => "riskFreeRate"
  | F_quantity => "quantity"
  end.

(** [Partial<Option>]: a missing field reads [undefined]. *)
Record PartialOption := mkPartial {
  po_ticker : jsval;
  po_type : jsval;
  po_spotPrice : jsval;
  po_strikePrice : jsval;
  po_timeToExpiry : jsval;
  po_volatility : jsval;
  po_riskFreeRate : jsval;
  po_quantity : jsval
}.

Definition po_get (option : PartialOption) (f : field) : jsval :=
  match f with
  | F_ticker => po_ticker option
  | F_type => po_type option
  | F_spotPrice => po_spotPrice option
  | F_strikePrice => po_strikePrice option
  | F_timeToExpiry => po_timeToExpiry option
  | F_volatility => po_volatility option
  | F_riskFreeRate => po_riskFreeRate option
  | F_quantity => po_quantity option
  end.

Definition requiredFields : list field :=
  [F_ticker; F_type; F_spotPrice; F_strikePrice; F_timeToExpiry;
   F_volatility; F_riskFreeRate; F_quantity].

Definition numericFields : list field :=
  [F_spotPrice; F_strikePrice; F_timeToExpiry; F_volatility;
   F_riskFreeRate; F_quantity].

(** [for (const field of requiredFields) if (option[field] === undefined)
    throw ..]. *)
Fixpoint check_required (fields : list field) (option : PartialOption)
  : result unit :=
  match fields with
  | [] => Ok tt
  | f :: rest =>
      match po_get option f with
      | JUndefined =>
          Raise (ValidationError ("Missing required field: " ++ field_name f))
      | _ => check_required rest option
      end
  end.

(** [typeof value !== 'number' || isNaN(value) || value <= 0]. *)
Definition not_positive_number (value : jsval) : bool :=
  match value with
  | JNumber n =>
      match n with NaN => true | _ => (n <=? 0)%num end
  | _ => true
  end.

Fixpoint check_numeric (fields : list field) (option : PartialOption)
  : result unit :=
  match fields with
  | [] => Ok tt
  | f :: rest =>
      if not_positive_number (po_get option f)
      then Raise (ValidationError
                    (field_name f ++ " must be a positive number"))
      else check_numeric rest option
  end.

(** [option.type !== 'Call' && option.type !== 'Put']. *)
Definition bad_type (value : jsval) : bool :=
  match value with
  | JString s => negb (String.eqb s "Call") && negb (String.eqb s "Put")
  | _ => true
  end.

(** The double quote character, and the message
    [Option type must be either "Call" or "Put"]. *)
Definition dquote : string :=
  String (Ascii.Ascii false true false false false true false false)
    EmptyString.

Definition bad_type_message : string :=
  "Option type must be either " ++ dquote ++ "Call" ++ dquote ++ " or "
  ++ dquote ++ "Put" ++ dquote.

Definition validateOption (option : PartialOption) : result bool :=
  and_then (check_required requiredFields option) (fun _ =>
  if bad_type (po_type option)
  then Raise (ValidationError bad_type_message)
  else
  and_then (check_numeric numericFields option) (fun _ =>
  Ok true)).

(** A parsed row: its own properties, in order. *)
Definition prop (row : list (string * jsval)) (name : string) : jsval :=
  match find (fun kv => String.eqb (fst kv) name) row with
  | Some kv => snd kv
  | None => JUndefined
  end.

Definition option_of_row (row : list (string * jsval)) : PartialOption :=
  {| po_ticker := prop row "ticker";
     po_type := prop row "type";
     po_spotPrice := prop row "spotPrice";
     po_strikePrice := prop row "strikePrice";
     po_timeToExpiry := prop row "timeToExpiry";
     po_volatility := prop row "volatility";
     po_riskFreeRate := prop row "riskFreeRate";
     po_quantity := prop row "quantity" |}.

(** The callback of [.map]: the option when [validateOption] returns
    true, [null] otherwise. *)
Definition checked_option (row : list (string * jsval))
  : result (option PartialOption) :=
  let option := option_of_row row in
  and_then (validateOption option) (fun ok =>
  if ok then Ok (Some option) else Ok None).

(** [arr.map(f)] and [arr.filter(f)] for a callback that can throw. *)
Fixpoint map_result {A B : Type} (f : A -> result B) (l : list A)
  : result (list B) :=
  match l with
  | [] => Ok []
  | x :: l' =>
      and_then (f x) (fun y =>
      and_then (map_result f l') (fun ys => Ok (y :: ys)))
  end.

Fixpoint filter_result {A : Type} (f : A -> result bool) (l : list A)
  : result (list A) :=
  match l with
  | [] => Ok []
  | x :: l' =>
      and_then (f x) (fun keep =>
      and_then (filter_result f l') (fun xs =>
      Ok (if keep then x :: xs else xs)))
  end.

(** [options.filter(opt => opt !== null)]. *)
Fixpoint non_null {A : Type} (l : list (option A)) : list A :=
  match l with
  | [] => []
  | Some a :: l' => a :: non_null l'
  | None :: l' => non_null l'
  end.

(** The [complete] callback of [parseCSV], from the rows that Papa
    hands over: [Ok] is [resolve], [Raise] is [reject]. *)
Definition parseCSV_complete (data : list (list (string * jsval)))
  : result (list PartialOption) :=
  and_then
    (map_result checked_option
       (filter (fun row => (0 <? List.length row)%nat) data))
    (fun options => Ok (non_null options)).

(** An element of a parsed JSON array: an object with its properties,
    [null], a number or boolean, a string, or an array of some length. *)
Inductive jitem :=
| IObject (fields : list (string * jsval))
| INull
| IScalar
| IString (s : string)
| IArray (n : nat).

(** The result of [JSON.parse]: an array, or anything else. *)
Inductive jdata :=
| DArray (items : list jitem)
| DOther.

(** [Object.keys(item).length]; on [null] it throws a TypeError (the
    message is V8's). *)
Definition keys_length (item : jitem) : result nat :=
  match item with
  | IObject fields => Ok (List.length fields)
  | INull => Raise (OtherError "Cannot convert undefined or null to object")
  | IScalar => Ok 0%nat
  | IString s => Ok (String.length s)
  | IArray n => Ok n
  end.

(** The named properties of an element: only an object has any of the
    eight that are read. *)
Definition item_row (item : jitem) : list (string * jsval) :=
  match item with
  | IObject fields => fields
  | _ => []
  end.

(** [parseJSON] from the result of [JSON.parse]. *)
Definition parseJSON_data (data : jdata) : result (list PartialOption) :=
  let body :=
    match data with
    | DOther =>
        Raise (ValidationError "JSON must contain an array of options")
    | DArray items =>
        and_then
          (filter_result
             (fun item =>
                and_then (keys_length item) (fun n => Ok (0 <? n)%nat))
             items)
          (fun kept =>
        and_then (map_result (fun item => checked_option (item_row item))
                    kept)
          (fun options => Ok (non_null options)))
    end in
  match body with
  | Ok options => Ok options
  | Raise (ValidationError m) => Raise (ValidationError m)
  | Raise (OtherError m) => Raise (OtherError ("JSON parsing error: " ++ m))
  end.

(** ** Reference formulas *)

(** The intermediate variables of the closed form, over the reals:
    [d1 = (ln(S/K) + (r + sigma^2/2) T) / (sigma sqrt T)] and
    [d2 = d1 - sigma sqrt T]. *)
Definition d1_formula (S K T r sigma : R) : R :=
  (ln (S / K) + (r + sigma * sigma / 2) * T) / (sigma * sqrt T).

Definition d2_formula (S K T r sigma : R) : R :=
  d1_formula S K T r sigma - sigma * sqrt T.

(** The value [p] of [normalCDF] at a finite argument: the tail of the
    polynomial approximation. *)
Definition cdf_poly (t : R) : R :=
  0.3193815 + t * (-0.3565638 + t * (1.781478
    + t * (-1.821256 + t * 1.330274))).

Definition normalCDF_tail (x : R) : R :=
  let t := 1 / (1 + 0.2316419 * Rabs x) in
  let d := 0.3989423 * exp (- x * x / 2) in
  d * t * cdf_poly t.

(** The value of [normalCDF] at a finite argument. *)
Definition normalCDF_R (x : R) : R :=
  if Rlt_dec 0 x then 1 - normalCDF_tail x else normalCDF_tail x.

(** The value of [normalPDF] at a finite argument. *)
Definition normalPDF_R (x : R) : R := exp (-0.5 * x * x) / sqrt (2 * PI).

(** The put price as the closed form states it, for a CDF [N]. *)
Definition put_formula (N : num -> num) (S K T r d1 d2 : num) : num :=
  (K * Math_exp (- r * T) * N (- d2) - S * N (- d1))%num.




(** The scenario with every shift at zero. *)
Definition zeroStress : StressParams :=
  {| spotPriceChange := 0; volatilityChange := 0; rateChange := 0 |}.

(** The contributions of one position pair to the five P&L components:
    the previous snapshot's Greek, the change of the market parameter and
    a quantity [q]. *)
Definition deltaTerm (q : num) (cur prev : OptionMetrics) : num :=
  (delta (greeks prev)
   * (spotPrice (contract cur) - spotPrice (contract prev)) * q)%num.

Definition gammaTerm (q : num) (cur prev : OptionMetrics) : num :=
  (0.5 * gamma (greeks prev)
   * (spotPrice (contract cur) - spotPrice (contract prev))
   * (spotPrice (contract cur) - spotPrice (contract prev)) * q)%num.

Definition thetaTerm (timeElapsed q : num) (prev : OptionMetrics) : num :=
  (theta (greeks prev) * (timeElapsed / 365) * q)%num.

Definition vegaTerm (q : num) (cur prev : OptionMetrics) : num :=
  (vega (greeks prev)
   * (volatility (contract cur) - volatility (contract prev)) * q)%num.

Definition rhoTerm (q : num) (cur prev : OptionMetrics) : num :=
  (rho (greeks prev)
   * (riskFreeRate (contract cur) - riskFreeRate (contract prev)) * q)%num.

(** The sum of [f cur prev] over the position pairs [(cur, prev)]. *)
Definition sum_pairs (f : OptionMetrics -> OptionMetrics -> num)
  (pairs : list (OptionMetrics * OptionMetrics)) : num :=
  fold_right (fun cp acc => (f (fst cp) (snd cp) + acc)%num) (Fin 0) pairs.

(** The attribution over given position pairs: every term is weighted by
    the quantity of the pair's current position. *)
Definition attributionOf (timeElapsed : num)
  (pairs : list (OptionMetrics * OptionMetrics)) (totalPnl : num)
  : PnLComponents :=
  let q := fun c => quantity (contract c) in
  let d := sum_pairs (fun c p => deltaTerm (q c) c p) pairs in
  let g := sum_pairs (fun c p => gammaTerm (q c) c p) pairs in
  let th := sum_pairs (fun c p => thetaTerm timeElapsed (q c) p) pairs in
  let v := sum_pairs (fun c p => vegaTerm (q c) c p) pairs in
  let rh := sum_pairs (fun c p => rhoTerm (q c) c p) pairs in
  {| pnl_delta := d; pnl_gamma := g; pnl_theta := th; pnl_vega := v;
     pnl_rho := rh;
     unexplained := (totalPnl - (d + g + th + v + rh))%num;
     total := totalPnl |}.

Definition elapsed (timeElapsed : option num) : num :=
  match timeElapsed with Some t => t | None => Fin 1 end.

(** A position with its quantity replaced. *)
Definition with_quantity (q : num) (m : OptionMetrics) : OptionMetrics :=
  let o := contract m in
  {| contract :=
       {| ticker := ticker o; type := type o; spotPrice := spotPrice o;
          strikePrice := strikePrice o; timeToExpiry := timeToExpiry o;
          volatility := volatility o; riskFreeRate := riskFreeRate o;
          quantity := q |};
     price := price m; greeks := greeks m; totalValue := totalValue m |}.

(** A portfolio with its positions replaced, totals kept. *)
Definition with_options (l : list OptionMetrics) (p : Portfolio)
  : Portfolio :=
  {| options := l; portfolioValue := portfolioValue p;
     aggregateGreeks := aggregateGreeks p |}.

(** A portfolio cut to its first [n] positions, totals kept. *)
Definition truncated (n : nat) (p : Portfolio) : Portfolio :=
  with_options (firstn n (options p)) p.

(** The sign of an option type, its intrinsic value and the indicator of
    being in the money. *)
Definition sgn (ty : OptionType) : R :=
  match ty with Call => 1 | Put => -1 end.

Definition intrinsic (ty : OptionType) (S K : R) : R :=
  Rmax 0 (sgn ty * (S - K)).

Definition in_the_money (ty : OptionType) (S K : R) : R :=
  if Rlt_dec 0 (sgn ty * (S - K)) then 1 else 0.

(** The bilinear combination of four corner values. *)
Definition bilinear (v11 v12 v21 v22 x y : R) : R :=
  v11 * (1 - x) * (1 - y) + v12 * x * (1 - y) + v21 * (1 - x) * y
  + v22 * x * y.

(** A strictly increasing axis. *)
Definition increasing (ks : list R) : Prop :=
  forall a b : nat,
    (a < b < List.length ks)%nat -> nth a ks 0 < nth b ks 0.

(** On an axis [ks] with lower bracket index [n]: the upper index and the
    denominator that the guard [|| 1] leaves. *)
Definition upper_of (ks : list R) (n : nat) : nat :=
  Nat.min (S n) (List.length ks - 1).

Definition guarded_den (ks : list R) (n : nat) : R :=
  if (S n <? List.length ks)%nat then nth (S n) ks 0 - nth n ks 0 else 1.

(** A grid of finite numbers with increasing axes and a fully populated
    table. *)
Definition grid_ok (data : VolSurfaceData) (ks ms : list R)
  (cell : nat -> nat -> R) : Prop :=
  strikes data = map Fin ks
  /\ maturities data = map Fin ms
  /\ increasing ks /\ increasing ms
  /\ forall j i : nat,
       (j < List.length ms)%nat -> (i < List.length ks)%nat ->
       get_cell (volatilities data) (Z.of_nat j) (Z.of_nat i)
       = Normal (Fin (cell j i)).

(** Parsed rows whose three fields are finite numbers. *)
Definition finite_rows (rows : list (R * R * R)) : list VolRow :=
  map (fun r => mkRow (Fin (fst (fst r))) (Fin (snd (fst r))) (Fin (snd r)))
      rows.

(** The volatility that the first row with strike [k] and maturity [m]
    carries, [0] when there is none. *)
Definition stored_vol (rows : list (R * R * R)) (k m : R) : R :=
  match find (fun r => Reqb (fst (fst r)) k && Reqb (snd (fst r)) m) rows with
  | Some r => snd r
  | None => 0
  end.


Definition sample_surface : VolSurfaceData :=
  {| strikes := [Fin 100; Fin 110];
     maturities := [Fin 1; Fin 2];
     volatilities := [[Fin 0.2; Fin 0.3]; [Fin 0.25; Fin 0.35]] |}.

Definition sample_cell (j i : nat) : R :=
  nth i (nth j [[0.2; 0.3]; [0.25; 0.35]] []) 0.


(** A value that the numeric check lets through: a number above zero
    ([Infinity] included, NaN excluded). *)
Definition positive_number (v : jsval) : Prop :=
  exists n : num, v = JNumber n /\ (n >? 0)%num = true.

(** An option that passes every check of the validator. *)
Definition well_formed (o : PartialOption) : Prop :=
  po_ticker o <> JUndefined
  /\ (po_type o = JString "Call" \/ po_type o = JString "Put")
  /\ forall f : field, In f numericFields -> positive_number (po_get o f).


(** The fields of a contract that a stress test leaves alone, and those
    that a what-if tuning leaves alone. *)
Definition unstressed (o : Option)
  : string * OptionType * num * num * num :=
  (ticker o, type o, strikePrice o, timeToExpiry o, quantity o).

Definition untuned (o : Option) : string * OptionType * num * num * num :=
  (ticker o, type o, spotPrice o, strikePrice o, quantity o).

(** A position whose spot, maturity, volatility and rate are finite. *)
Definition finite_market (m : OptionMetrics) : Prop :=
  exists s t v r : R,
    spotPrice (contract m) = Fin s /\ timeToExpiry (contract m) = Fin t
    /\ volatility (contract m) = Fin v /\ riskFreeRate (contract m) = Fin r.

(** A position whose market data, quantity and Greeks are all finite. *)
Definition finite_position (m : OptionMetrics) : Prop :=
  finite_market m
  /\ (exists q : R, quantity (contract m) = Fin q)
  /\ exists d g th v rh : R,
       greeks m = {| delta := Fin d; gamma := Fin g; theta := Fin th;
                     vega := Fin v; rho := Fin rh |}.


(** The nodes of the two axes of the Greeks surface, for a spot [s]. *)
Definition strike_node (s : R) (i : nat) : R :=
  s * 0.7 + (s * 1.3 - s * 0.7) * (INR i / (40 - 1)).

Definition time_node (i : nat) : R :=
  0.1 + (2 - 0.1) * (INR i / (40 - 1)).

(** The sum of a list of numbers. *)
Definition sum_num (l : list num) : num := fold_right add (Fin 0) l.

(** * Properties *)

(** ** Arithmetic of finite numbers *)

Arguments div : simpl never.
Arguments Rltb : simpl never.
Arguments Reqb : simpl never.
Arguments Math_log : simpl never.
Arguments Math_sqrt : simpl never.

Lemma Rltb_true (a b : R) : a < b -> Rltb a b = true.
Proof. intros H. unfold Rltb. destruct (Rlt_dec a b); [reflexivity | lra]. Qed.

Lemma Rltb_false (a b : R) : b <= a -> Rltb a b = false.
Proof. intros H. unfold Rltb. destruct (Rlt_dec a b); [lra | reflexivity]. Qed.

Lemma Reqb_true (a b : R) : a = b -> Reqb a b = true.
Proof. intros H. unfold Reqb. destruct (Req_dec_T a b); [reflexivity | lra]. Qed.

Lemma Reqb_false (a b : R) : a <> b -> Reqb a b = false.
Proof.
  intros H. unfold Reqb. destruct (Req_dec_T a b); [contradiction | reflexivity].
Qed.

Lemma Rsign_pos (r : R) : 0 < r -> Rsign r = Gt.
Proof. intros H. unfold Rsign. destruct (Rlt_dec 0 r); [reflexivity | lra]. Qed.

Lemma Rsign_neg (r : R) : r < 0 -> Rsign r = Lt.
Proof.
  intros H. unfold Rsign.
  destruct (Rlt_dec 0 r); [lra |]. destruct (Rlt_dec r 0); [reflexivity | lra].
Qed.

Lemma Rsign_zero (r : R) : r = 0 -> Rsign r = Eq.
Proof.
  intros H. unfold Rsign.
  destruct (Rlt_dec 0 r); [lra |]. destruct (Rlt_dec r 0); [lra | reflexivity].
Qed.

Lemma Fin_eq (a b : R) : a = b -> Fin a = Fin b.
Proof. intros H. rewrite H. reflexivity. Qed.

Lemma div_Fin (a b : R) : b <> 0 -> (Fin a / Fin b)%num = Fin (a / b).
Proof.
  intros H. unfold div. destruct (Req_dec_T b 0); [contradiction | reflexivity].
Qed.

Lemma div_zero_zero (a b : R) : a = 0 -> b = 0 -> (Fin a / Fin b)%num = NaN.
Proof.
  intros Ha Hb. unfold div. destruct (Req_dec_T b 0); [| contradiction].
  rewrite (Rsign_zero a Ha). reflexivity.
Qed.

Lemma Math_log_Fin (a : R) : 0 < a -> Math_log (Fin a) = Fin (ln a).
Proof.
  intros H. unfold Math_log. destruct (Rlt_dec 0 a); [reflexivity | lra].
Qed.

Lemma Math_sqrt_Fin (a : R) : 0 <= a -> Math_sqrt (Fin a) = Fin (sqrt a).
Proof.
  intros H. unfold Math_sqrt. destruct (Rlt_dec a 0); [lra | reflexivity].
Qed.

Lemma add_0_l (x : num) : (Fin 0 + x)%num = x.
Proof. destruct x; simpl; try reflexivity. apply Fin_eq. ring. Qed.

Lemma add_0_r (x : num) : (x + Fin 0)%num = x.
Proof. destruct x; simpl; try reflexivity. apply Fin_eq. ring. Qed.

Lemma add_comm (x y : num) : (x + y)%num = (y + x)%num.
Proof. destruct x, y; simpl; try reflexivity. apply Fin_eq. ring. Qed.

Lemma add_assoc (x y z : num) : (x + (y + z))%num = (x + y + z)%num.
Proof. destruct x, y, z; simpl; try reflexivity. apply Fin_eq. ring. Qed.

Lemma mul_1_r (x : num) (c : R) : c = 1 -> (x * Fin c)%num = x.
Proof.
  intros ->. destruct x; simpl; try reflexivity.
  - apply Fin_eq. ring.
  - rewrite Rsign_pos by lra. reflexivity.
  - rewrite Rsign_pos by lra. reflexivity.
Qed.

Lemma add_zero_r (x : num) (c : R) : c = 0 -> (x + Fin c)%num = x.
Proof. intros ->. apply add_0_r. Qed.

(** ** The pricing engine on finite, valid inputs *)

Lemma sqrt_pos_ne (T : R) : 0 < T -> sqrt T <> 0.
Proof. intros H. pose proof (sqrt_lt_R0 T H). lra. Qed.

Lemma calculateD1D2_Fin (S K T r sigma : R) :
  0 < S -> 0 < K -> 0 < T -> 0 < sigma ->
  calculateD1D2 (Fin S) (Fin K) (Fin T) (Fin r) (Fin sigma)
  = (Fin (d1_formula S K T r sigma), Fin (d2_formula S K T r sigma)).
Proof.
  intros HS HK HT Hs.
  pose proof (sqrt_lt_R0 T HT) as HsT.
  assert (HSK : 0 < S / K) by (apply Rdiv_lt_0_compat; assumption).
  assert (Hden : sigma * sqrt T <> 0) by nra.
  unfold calculateD1D2, d2_formula, d1_formula.
  rewrite (div_Fin S K) by lra.
  rewrite (Math_log_Fin _ HSK).
  rewrite (Math_sqrt_Fin T) by lra.
  assert (H2 : (2 : R) <> 0) by lra.
  simpl.
  rewrite (div_Fin (sigma * sigma) 2 H2).
  simpl.
  rewrite div_Fin by exact Hden.
  reflexivity.
Qed.

Lemma normalCDF_Fin (x : R) :
  normalCDF (Fin x) = Fin (normalCDF_R x).
Proof.
  unfold normalCDF, normalCDF_R, normalCDF_tail, cdf_poly.
  assert (Hden : 1 + 0.2316419 * Rabs x <> 0)
    by (pose proof (Rabs_pos x); lra).
  assert (H2 : (2 : R) <> 0) by lra.
  simpl.
  rewrite (div_Fin 1 _ Hden).
  rewrite (div_Fin _ 2 H2).
  simpl. unfold num_gt, num_lt, Rltb.
  destruct (Rlt_dec 0 x); reflexivity.
Qed.

Lemma normalPDF_Fin (x : R) : normalPDF (Fin x) = Fin (normalPDF_R x).
Proof.
  unfold normalPDF, normalPDF_R, Math_PI.
  pose proof PI_RGT_0 as Hpi.
  simpl.
  rewrite Math_sqrt_Fin by lra.
  rewrite div_Fin by (apply sqrt_pos_ne; lra).
  reflexivity.
Qed.


Lemma normalCDF_tail_opp (x : R) : normalCDF_tail (- x) = normalCDF_tail x.
Proof.
  unfold normalCDF_tail. rewrite Rabs_Ropp.
  replace (- - x * - x / 2) with (- x * x / 2) by field.
  reflexivity.
Qed.

(** Away from zero the approximation is symmetric: [N(x) + N(-x) = 1]. *)
Lemma normalCDF_R_symm (x : R) :
  x <> 0 -> normalCDF_R x + normalCDF_R (- x) = 1.
Proof.
  intros Hx. unfold normalCDF_R. rewrite normalCDF_tail_opp.
  destruct (Rlt_dec 0 x), (Rlt_dec 0 (- x)); lra.
Qed.


(** ** Bounds of the CDF approximation *)

Lemma quad_nonneg (a b c t : R) :
  0 < a -> b * b <= 4 * a * c -> 0 <= a * (t * t) + b * t + c.
Proof.
  intros Ha Hd.
  assert (H : 0 <= a * (a * (t * t) + b * t + c)).
  { replace (a * (a * (t * t) + b * t + c))
      with ((a * t + b / 2) * (a * t + b / 2) + (4 * a * c - b * b) / 4)
      by field.
    pose proof (Rle_0_sqr (a * t + b / 2)) as Hs. unfold Rsqr in Hs. lra. }
  destruct (Rle_dec 0 (a * (t * t) + b * t + c)); [assumption |].
  exfalso. nra.
Qed.

Lemma cdf_poly_nonneg (t : R) : 0 <= cdf_poly t.
Proof.
  unfold cdf_poly.
  pose proof (quad_nonneg 0.1 (-0.3565638) 0.3193815 t
                ltac:(lra) ltac:(lra)) as H1.
  pose proof (quad_nonneg 1.330274 (-1.821256) 1.681478 t
                ltac:(lra) ltac:(lra)) as H2.
  assert (H3 : 0 <= t * t * (1.330274 * (t * t) + -1.821256 * t + 1.681478)).
  { apply Rmult_le_pos; [nra | exact H2]. }
  lra.
Qed.

(** On [[0, 1]] the polynomial is largest at [1]:
    [cdf_poly 1 - cdf_poly t = (1 - t) g(t)] with [g >= 0]. *)
Lemma cdf_poly_le (t : R) : 0 <= t <= 1 -> cdf_poly t <= 1.2533137.
Proof.
  intros H. unfold cdf_poly.
  assert (Hg : 0 <= 0.9339322 + 1.290496 * t - 0.490982 * (t * t)
                    + 1.330274 * (t * t * t)).
  { assert (0 <= t * t <= t) by nra. assert (0 <= t * t * t) by nra. nra. }
  assert (Hp : 0 <= (1 - t) * (0.9339322 + 1.290496 * t
                               - 0.490982 * (t * t)
                               + 1.330274 * (t * t * t))).
  { apply Rmult_le_pos; [lra | exact Hg]. }
  lra.
Qed.

Lemma exp_nonpos_le_1 (x : R) : x <= 0 -> exp x <= 1.
Proof.
  intros [H | ->].
  - rewrite <- exp_0. left. apply exp_increasing. exact H.
  - rewrite exp_0. lra.
Qed.

Lemma normalCDF_tail_bounds (x : R) :
  0 <= normalCDF_tail x <= 0.3989423 * 1.2533137.
Proof.
  unfold normalCDF_tail. cbv zeta.
  set (t := 1 / (1 + 0.2316419 * Rabs x)).
  assert (Ht : 0 < t <= 1).
  { pose proof (Rabs_pos x) as Hx. unfold t. split.
    - apply Rdiv_lt_0_compat; lra.
    - apply Rmult_le_reg_r with (1 + 0.2316419 * Rabs x); [lra |].
      unfold Rdiv. rewrite Rmult_assoc, Rinv_l by lra. lra. }
  pose proof (exp_pos (- x * x / 2)) as He.
  assert (He1 : exp (- x * x / 2) <= 1).
  { apply exp_nonpos_le_1. pose proof (Rle_0_sqr x) as Hs.
    unfold Rsqr in Hs. lra. }
  pose proof (cdf_poly_nonneg t) as Hp0.
  assert (Hp1 : cdf_poly t <= 1.2533137) by (apply cdf_poly_le; lra).
  set (e := exp (- x * x / 2)) in *. set (c := cdf_poly t) in *.
  assert (Htc : 0 <= t * c <= 1.2533137) by nra.
  assert (Hetc : 0 <= e * (t * c) <= 1.2533137) by nra.
  split.
  - replace (0.3989423 * e * t * c) with (0.3989423 * (e * (t * c))) by ring.
    nra.
  - replace (0.3989423 * e * t * c) with (0.3989423 * (e * (t * c))) by ring.
    nra.
Qed.

Lemma normalCDF_R_bounds (x : R) : 0 <= normalCDF_R x <= 1.
Proof.
  pose proof (normalCDF_tail_bounds x) as H. unfold normalCDF_R.
  destruct (Rlt_dec 0 x); lra.
Qed.

Lemma normalCDF_R_pos_gt_half (x : R) : 0 < x -> 1 / 2 < normalCDF_R x.
Proof.
  intros Hx. pose proof (normalCDF_tail_bounds x) as H. unfold normalCDF_R.
  destruct (Rlt_dec 0 x); lra.
Qed.


(** What [calculateBlackScholes] returns as the price of a put: the CDF is
    taken at [-d1] and [-d2] and then complemented once more. *)
Lemma calculateBlackScholes_put_price
  (cdf pdf : num -> num -> num -> num) (S K T sigma r : R) :
  0 < S -> 0 < K -> 0 < T -> 0 < sigma ->
  optionPrice (calculateBlackScholes cdf pdf
                 (mkInputs (Fin S) (Fin K) (Fin T) (Fin sigma) (Fin r) false))
  = (Fin K * Fin (exp (- r * T))
       * (1 - cdf (Fin (- d2_formula S K T r sigma)) 0 1)
     - Fin S * (1 - cdf (Fin (- d1_formula S K T r sigma)) 0 1))%num.
Proof.
  intros HS HK HT Hs.
  pose proof (sqrt_lt_R0 T HT) as HsT.
  assert (HSK : 0 < S / K) by (apply Rdiv_lt_0_compat; assumption).
  assert (Hden : sigma * sqrt T <> 0) by nra.
  assert (H2 : (2 : R) <> 0) by lra.
  unfold calculateBlackScholes, d2_formula, d1_formula.
  cbn [optionPrice stockPrice bs_strikePrice timeToMaturity bs_volatility
       bs_riskFreeRate isCall].
  rewrite (div_Fin S K) by lra.
  rewrite (Math_log_Fin _ HSK).
  rewrite (Math_sqrt_Fin T) by lra.
  simpl.
  rewrite (div_Fin (sigma * sigma) 2 H2).
  simpl.
  rewrite div_Fin by exact Hden.
  reflexivity.
Qed.

Lemma d1_formula_at_the_money (K r sigma : R) :
  0 < K -> d1_formula K K 1 r sigma = (r + sigma * sigma / 2) / sigma.
Proof.
  intros HK. unfold d1_formula.
  replace (K / K) with 1 by (field; lra).
  rewrite ln_1, sqrt_1. f_equal; ring.
Qed.

Lemma d2_formula_at_the_money (K r sigma : R) :
  0 < K ->
  d2_formula K K 1 r sigma = (r + sigma * sigma / 2) / sigma - sigma.
Proof.
  intros HK. unfold d2_formula. rewrite d1_formula_at_the_money by assumption.
  rewrite sqrt_1. ring.
Qed.

(** ** C1: the put price *)

(** [calculateOptionPrice] follows the closed form of the put. *)
Lemma calculateOptionPrice_put_formula (tk : string) (S K T sigma r : R)
  (q : num) :
  0 < S -> 0 < K -> 0 < T -> 0 < sigma ->
  let '(d1, d2) :=
    calculateD1D2 (Fin S) (Fin K) (Fin T) (Fin r) (Fin sigma) in
  calculateOptionPrice
    (mkOption tk Put (Fin S) (Fin K) (Fin T) (Fin sigma) (Fin r) q)
  = put_formula normalCDF (Fin S) (Fin K) (Fin T) (Fin r) d1 d2.
Proof.
  intros HS HK HT Hs.
  unfold calculateOptionPrice, put_formula.
  cbn [spotPrice strikePrice timeToExpiry riskFreeRate volatility type].
  destruct (calculateD1D2 _ _ _ _ _) as [d1 d2]. reflexivity.
Qed.

(** C1 (second routine, at the failing input): for the put with
    [S = K = 100], [T = 1], [sigma = 0.2], [r = 0.05] (so [d1 = 0.35] and
    [d2 = 0.15]) and any CDF with [N(-0.35) <= 0.4] and [0.42 <= N(-0.15)],
    the price that [calculateBlackScholes] returns differs from
    [K e^(-rT) N(-d2) - S N(-d1)]. *)
Theorem calculateBlackScholes_put_price_mismatch
  (cdf pdf : num -> num -> num -> num) (a b : R) :
  cdf (Fin (- (7 / 20))) 0 1 = Fin a -> a <= 2 / 5 ->
  cdf (Fin (- (3 / 20))) 0 1 = Fin b -> 21 / 50 <= b ->
  let S := Fin 100 in
  let K := Fin 100 in
  let T := Fin 1 in
  let sigma := Fin (1 / 5) in
  let r := Fin (1 / 20) in
  let '(d1, d2) := calculateD1D2 S K T r sigma in
  optionPrice (calculateBlackScholes cdf pdf (mkInputs S K T sigma r false))
  <> put_formula (fun x => cdf x 0 1) S K T r d1 d2.
Proof.
  intros Ha Hale Hb Hble. cbv zeta.
  rewrite calculateD1D2_Fin by lra.
  rewrite calculateBlackScholes_put_price by lra.
  unfold put_formula. cbn [neg].
  rewrite d2_formula_at_the_money, d1_formula_at_the_money by lra.
  replace ((1 / 20 + 1 / 5 * (1 / 5) / 2) / (1 / 5)) with (7 / 20) by field.
  replace (7 / 20 - 1 / 5) with (3 / 20) by field.
  rewrite Ha, Hb. simpl.
  intros E. injection E as E.
  pose proof (exp_pos (- (1 / 20) * 1)) as He.
  assert (He1 : exp (- (1 / 20) * 1) <= 1) by (apply exp_nonpos_le_1; lra).
  nra.
Qed.

(** The repository's own [normalCDF] meets both conditions on the CDF. *)
Lemma normalCDF_R_at_minus_035 : normalCDF_R (- (7 / 20)) <= 2 / 5.
Proof.
  unfold normalCDF_R. destruct (Rlt_dec 0 (- (7 / 20))); [lra |].
  rewrite normalCDF_tail_opp. unfold normalCDF_tail. cbv zeta.
  rewrite (Rabs_pos_eq (7 / 20)) by lra.
  set (t := 1 / (1 + 0.2316419 * (7 / 20))).
  assert (Hc : 0 <= t * cdf_poly t <= 0.97) by (unfold t, cdf_poly; lra).
  pose proof (exp_pos (- (7 / 20) * (7 / 20) / 2)) as He.
  assert (He1 : exp (- (7 / 20) * (7 / 20) / 2) <= 1)
    by (apply exp_nonpos_le_1; lra).
  replace (0.3989423 * exp (- (7 / 20) * (7 / 20) / 2) * t * cdf_poly t)
    with (0.3989423 * (exp (- (7 / 20) * (7 / 20) / 2) * (t * cdf_poly t)))
    by ring.
  nra.
Qed.

Lemma normalCDF_R_at_minus_015 : 21 / 50 <= normalCDF_R (- (3 / 20)).
Proof.
  unfold normalCDF_R. destruct (Rlt_dec 0 (- (3 / 20))); [lra |].
  rewrite normalCDF_tail_opp. unfold normalCDF_tail. cbv zeta.
  rewrite (Rabs_pos_eq (3 / 20)) by lra.
  set (t := 1 / (1 + 0.2316419 * (3 / 20))).
  assert (Hc : 1.11 <= t * cdf_poly t) by (unfold t, cdf_poly; lra).
  pose proof (exp_ineq1_le (- (3 / 20) * (3 / 20) / 2)) as He.
  replace (0.3989423 * exp (- (3 / 20) * (3 / 20) / 2) * t * cdf_poly t)
    with (0.3989423 * (exp (- (3 / 20) * (3 / 20) / 2) * (t * cdf_poly t)))
    by ring.
  nra.
Qed.

Lemma calculateBlackScholes_put_price_mismatch_witness :
  let cdf := fun x (_ _ : num) => normalCDF x in
  let pdf := fun x (_ _ : num) => normalPDF x in
  let '(d1, d2) :=
    calculateD1D2 (Fin 100) (Fin 100) (Fin 1) (Fin (1 / 20))
      (Fin (1 / 5)) in
  optionPrice
    (calculateBlackScholes cdf pdf
       (mkInputs (Fin 100) (Fin 100) (Fin 1) (Fin (1 / 5))
          (Fin (1 / 20)) false))
  <> put_formula (fun x => cdf x 0 1) (Fin 100) (Fin 100) (Fin 1)
       (Fin (1 / 20)) d1 d2.
Proof.
  intros cdf pdf.
  apply (calculateBlackScholes_put_price_mismatch cdf pdf
           (normalCDF_R (- (7 / 20))) (normalCDF_R (- (3 / 20)))).
  - apply normalCDF_Fin.
  - exact normalCDF_R_at_minus_035.
  - apply normalCDF_Fin.
  - exact normalCDF_R_at_minus_015.
Defined.

(** ** C5: put-call parity *)





(** ** C8: bounds of the Greeks *)

Lemma calculateGreeks_Fin (tk : string) (ty : OptionType)
  (S K T sigma r : R) (q : num) :
  0 < S -> 0 < K -> 0 < T -> 0 < sigma ->
  calculateGreeks (mkOption tk ty (Fin S) (Fin K) (Fin T) (Fin sigma)
                     (Fin r) q)
  = let d1 := d1_formula S K T r sigma in
    let d2 := d2_formula S K T r sigma in
    let sign := match ty with Call => 1 | Put => -1 end in
    {| delta := Fin (sign * normalCDF_R (sign * d1));
       gamma := Fin (normalPDF_R d1 / (S * sigma * sqrt T));
       theta := Fin (- S * sigma * normalPDF_R d1 / (2 * sqrt T)
                     - sign * r * K * exp (- r * T)
                       * normalCDF_R (sign * d2));
       vega := Fin (S * sqrt T * normalPDF_R d1);
       rho := Fin (sign * K * T * exp (- r * T)
                   * normalCDF_R (sign * d2)) |}.
Proof.
  intros HS HK HT Hs.
  pose proof (sqrt_lt_R0 T HT) as HsT.
  assert (Hden1 : S * sigma * sqrt T <> 0).
  { assert (0 < S * sigma) by nra. nra. }
  assert (Hden2 : 2 * sqrt T <> 0) by lra.
  unfold calculateGreeks.
  cbn [spotPrice strikePrice timeToExpiry riskFreeRate volatility type].
  rewrite calculateD1D2_Fin by assumption.
  rewrite normalPDF_Fin, (Math_sqrt_Fin T) by lra.
  destruct ty; cbn [mul neg]; rewrite !normalCDF_Fin; cbn [mul add sub neg];
    rewrite !div_Fin by assumption; reflexivity.
Qed.



(** ** C2: the aggregation invariant *)

Lemma fold_left_add {A : Type} (f : A -> num) (l : list A) (a : num) :
  fold_left (fun sum x => (sum + f x)%num) l a
  = (a + sum_num (map f l))%num.
Proof.
  revert a. induction l as [| x l IH]; intros a; simpl.
  - symmetry. apply add_0_r.
  - rewrite IH. symmetry. apply add_assoc.
Qed.

Lemma get_accumulate_greeks (agg : OptionGreeks) (opt : OptionMetrics)
  (k : greek) :
  get_greek (accumulate_greeks agg opt) k
  = (get_greek agg k
     + get_greek (greeks opt) k * quantity (contract opt))%num.
Proof. destruct k; reflexivity. Qed.

Lemma get_fold_accumulate_greeks (l : list OptionMetrics)
  (agg : OptionGreeks) (k : greek) :
  get_greek (fold_left accumulate_greeks l agg) k
  = (get_greek agg k
     + sum_num (map (fun opt => (get_greek (greeks opt) k
                                 * quantity (contract opt))%num) l))%num.
Proof.
  revert agg. induction l as [| opt l IH]; intros agg; simpl.
  - symmetry. apply add_0_r.
  - rewrite IH, get_accumulate_greeks. symmetry. apply add_assoc.
Qed.

(** C2: for every list of contracts the portfolio keeps the per-contract
    metrics in order, its total value is the sum of [price * quantity] and
    each aggregate Greek is the sum of [greek * quantity], the prices and
    Greeks being those of the pricing engine. *)
Theorem aggregation_invariant (opts : list Option) :
  let p := calculatePortfolioMetrics opts in
  options p = map calculateOptionMetrics opts
  /\ portfolioValue p
     = sum_num (map (fun o => (calculateOptionPrice o * quantity o)%num)
                  opts)
  /\ forall k : greek,
       get_greek (aggregateGreeks p) k
       = sum_num (map (fun o => (get_greek (calculateGreeks o) k
                                 * quantity o)%num) opts).
Proof.
  cbv zeta. unfold calculatePortfolioMetrics.
  cbn [options portfolioValue aggregateGreeks].
  split; [reflexivity | split].
  - rewrite (fold_left_add totalValue), add_0_l, map_map. reflexivity.
  - intros k. rewrite get_fold_accumulate_greeks, map_map.
    assert (E : get_greek zeroGreeks k = Fin 0) by (destruct k; reflexivity).
    rewrite E, add_0_l. reflexivity.
Qed.

(** ** C9: the zero scenario *)

Lemma stress_factor_zero (x : num) : (x * (1 + Fin 0 / 100))%num = x.
Proof.
  rewrite div_Fin by lra. cbn [add]. apply mul_1_r. lra.
Qed.

Lemma stress_shift_zero (x : num) : (x + Fin 0 / 100)%num = x.
Proof.
  rewrite div_Fin by lra. apply add_zero_r. lra.
Qed.

Lemma stressOption_zero (o : Option) :
  stressOption zeroStress (calculateOptionMetrics o) = o.
Proof.
  destruct o. unfold stressOption, zeroStress.
  cbn [contract calculateOptionMetrics ticker type spotPrice strikePrice
       timeToExpiry volatility riskFreeRate quantity spotPriceChange
       volatilityChange rateChange].
  rewrite !stress_factor_zero, stress_shift_zero. reflexivity.
Qed.

Lemma runStressTest_zero (opts : list Option) :
  runStressTest (calculatePortfolioMetrics opts) zeroStress
  = calculatePortfolioMetrics opts.
Proof.
  unfold runStressTest. f_equal.
  cbn [options calculatePortfolioMetrics].
  rewrite map_map. rewrite <- (map_id opts) at 2.
  apply map_ext. intros o. apply stressOption_zero.
Qed.

(** C9: stressing an aggregated portfolio with all three shifts at zero
    and re-aggregating gives back its total value and its five aggregate
    Greeks. *)
Theorem zero_scenario_identity (opts : list Option) :
  let p := calculatePortfolioMetrics opts in
  let p' := runStressTest p zeroStress in
  portfolioValue p' = portfolioValue p
  /\ forall k : greek,
       get_greek (aggregateGreeks p') k = get_greek (aggregateGreeks p) k.
Proof.
  cbv zeta. rewrite runStressTest_zero. split; [reflexivity |].
  intros k. reflexivity.
Qed.

Lemma runStressTest_zero_contracts (p : Portfolio) :
  runStressTest p zeroStress
  = calculatePortfolioMetrics (map contract (options p)).
Proof.
  unfold runStressTest. f_equal. apply map_ext. intros m.
  rewrite <- (stressOption_zero (contract m)). reflexivity.
Qed.

(** ** P&L attribution *)

Lemma nth_error_skipn_cons {A : Type} (l : list A) (i : nat) (x : A) :
  nth_error l i = Some x -> skipn i l = x :: skipn (S i) l.
Proof.
  revert i. induction l as [| y l IH]; intros [| i] H; simpl in *;
    try discriminate.
  - injection H as ->. reflexivity.
  - apply IH. exact H.
Qed.

Lemma nth_error_skipn_nil {A : Type} (l : list A) (i : nat) :
  nth_error l i = None -> skipn i l = [].
Proof.
  intros H. apply skipn_all2. apply nth_error_None. exact H.
Qed.

(** The state after the [forEach]: every component has grown by the sum
    of its terms over the pairs of positions that both snapshots have. *)
Lemma forEach_attribution (prev : list OptionMetrics) (t : num)
  (cur : list OptionMetrics) (i : nat) (att : PnLComponents) :
  let r := forEach_from (attributionStep prev t) cur i att in
  let pairs := combine cur (skipn i prev) in
  let q := fun c => quantity (contract c) in
  pnl_delta r
  = (pnl_delta att + sum_pairs (fun c p => deltaTerm (q c) c p) pairs)%num
  /\ pnl_gamma r
     = (pnl_gamma att + sum_pairs (fun c p => gammaTerm (q c) c p) pairs)%num
  /\ pnl_theta r
     = (pnl_theta att + sum_pairs (fun c p => thetaTerm t (q c) p) pairs)%num
  /\ pnl_vega r
     = (pnl_vega att + sum_pairs (fun c p => vegaTerm (q c) c p) pairs)%num
  /\ pnl_rho r
     = (pnl_rho att + sum_pairs (fun c p => rhoTerm (q c) c p) pairs)%num
  /\ unexplained r = unexplained att
  /\ total r = total att.
Proof.
  cbv zeta. revert i att.
  induction cur as [| c cur IH]; intros i att.
  - simpl. rewrite !add_0_r. repeat split; reflexivity.
  - cbn [forEach_from].
    specialize (IH (S i) (attributionStep prev t att c i)).
    destruct IH as (H1 & H2 & H3 & H4 & H5 & H6 & H7).
    rewrite H1, H2, H3, H4, H5, H6, H7. clear H1 H2 H3 H4 H5 H6 H7.
    unfold attributionStep.
    destruct (nth_error prev i) as [p |] eqn:E.
    + rewrite (nth_error_skipn_cons _ _ _ E).
      cbn [combine sum_pairs fold_right fst snd].
      cbn [pnl_delta pnl_gamma pnl_theta pnl_vega pnl_rho unexplained total].
      unfold deltaTerm, gammaTerm, thetaTerm, vegaTerm, rhoTerm.
      rewrite !add_assoc. repeat split; reflexivity.
    + rewrite (nth_error_skipn_nil _ _ E).
      assert (E' : skipn (S i) prev = []).
      { apply skipn_all2. apply nth_error_None in E. lia. }
      rewrite E'. rewrite !combine_nil. repeat split; reflexivity.
Qed.

Lemma pnlAttribution_pairs (cur prev : Portfolio) (t : option num) :
  pnlAttribution cur (Some prev) t
  = Normal (Some (attributionOf (elapsed t)
                    (combine (options cur) (options prev))
                    (portfolioValue cur - portfolioValue prev)%num)).
Proof.
  unfold pnlAttribution, forEach.
  match goal with
  | |- context [forEach_from ?f ?l 0%nat ?a] =>
      pose proof (forEach_attribution (options prev) (elapsed t) l 0%nat a)
        as H
  end.
  cbv zeta in H. cbn [skipn] in H.
  cbn [pnl_delta pnl_gamma pnl_theta pnl_vega pnl_rho unexplained total] in H.
  rewrite !add_0_l in H.
  destruct H as (H1 & H2 & H3 & H4 & H5 & H6 & H7).
  fold (elapsed t).
  rewrite H1, H2, H3, H4, H5, H7. reflexivity.
Qed.

Lemma combine_firstn_min {A B : Type} (a : list A) (b : list B) :
  let n := Nat.min (List.length a) (List.length b) in
  combine (firstn n a) (firstn n b) = combine a b.
Proof.
  cbv zeta. revert b. induction a as [| x a IH]; intros [| y b]; simpl;
    try reflexivity.
  f_equal. apply IH.
Qed.

(** ** C3: snapshots of different lengths *)

(** C3 (as amended): whatever the lengths of the two options arrays, the
    attribution returns normally; it is the attribution of the two
    snapshots cut to the shorter length, so unmatched positions are left
    out without an error. *)
Theorem pnl_attribution_skips_unmatched (cur prev : Portfolio)
  (t : option num) :
  let n := Nat.min (List.length (options cur)) (List.length (options prev)) in
  (exists att, pnlAttribution cur (Some prev) t = Normal (Some att))
  /\ pnlAttribution cur (Some prev) t
     = pnlAttribution (truncated n cur) (Some (truncated n prev)) t.
Proof.
  cbv zeta. rewrite !pnlAttribution_pairs. split.
  - eexists. reflexivity.
  - unfold truncated, with_options. cbn [options portfolioValue].
    rewrite combine_firstn_min. reflexivity.
Qed.

(** C3 (as stated) fails: with two positions now and one before, the
    computation does not throw, it returns an attribution. *)
Lemma pnl_attribution_mismatch_returns :
  let o1 := mkOption "A" Call (Fin 100) (Fin 100) (Fin 1) (Fin (1 / 5))
              (Fin (1 / 20)) (Fin 10) in
  let o2 := mkOption "B" Put (Fin 50) (Fin 55) (Fin 2) (Fin (3 / 10))
              (Fin (1 / 20)) (Fin 5) in
  let cur := calculatePortfolioMetrics [o1; o2] in
  let prev := calculatePortfolioMetrics [o1] in
  List.length (options cur) <> List.length (options prev)
  /\ (forall msg, pnlAttribution cur (Some prev) None <> Throw msg)
  /\ exists att, pnlAttribution cur (Some prev) None = Normal (Some att).
Proof.
  cbv zeta. split; [simpl; lia |].
  rewrite pnlAttribution_pairs. split.
  - intros msg H. discriminate H.
  - eexists. reflexivity.
Qed.

(** ** C10: which snapshot weights the terms *)

Lemma sum_pairs_map_snd (f : OptionMetrics -> OptionMetrics -> num)
  (g : OptionMetrics -> OptionMetrics) (a b : list OptionMetrics) :
  sum_pairs f (combine a (map g b))
  = sum_pairs (fun c p => f c (g p)) (combine a b).
Proof.
  revert b. induction a as [| x a IH]; intros [| y b]; simpl;
    try reflexivity.
  f_equal. apply IH.
Qed.

(** C10: for aligned snapshots, each of the five components is the sum
    over the position pairs of the previous snapshot's Greek times the
    parameter change times the current snapshot's quantity; replacing the
    quantities of the previous snapshot by anything leaves the attribution
    unchanged. *)
Theorem pnl_weighted_by_current_quantity (cur prev : Portfolio)
  (t : option num) (newQuantity : OptionMetrics -> num) :
  List.length (options cur) = List.length (options prev) ->
  let pairs := combine (options cur) (options prev) in
  let q := fun c : OptionMetrics => quantity (contract c) in
  let prev' :=
    with_options
      (map (fun m => with_quantity (newQuantity m) m) (options prev)) prev in
  List.length pairs = List.length (options cur)
  /\ (exists att,
        pnlAttribution cur (Some prev) t = Normal (Some att)
        /\ pnl_delta att = sum_pairs (fun c p => deltaTerm (q c) c p) pairs
        /\ pnl_gamma att = sum_pairs (fun c p => gammaTerm (q c) c p) pairs
        /\ pnl_theta att
           = sum_pairs (fun c p => thetaTerm (elapsed t) (q c) p) pairs
        /\ pnl_vega att = sum_pairs (fun c p => vegaTerm (q c) c p) pairs
        /\ pnl_rho att = sum_pairs (fun c p => rhoTerm (q c) c p) pairs)
  /\ pnlAttribution cur (Some prev') t = pnlAttribution cur (Some prev) t.
Proof.
  intros Hlen. cbv zeta. split; [| split].
  - rewrite length_combine, Hlen. apply Nat.min_id.
  - rewrite pnlAttribution_pairs. eexists. split; [reflexivity |].
    unfold attributionOf. cbn. repeat split; reflexivity.
  - rewrite !pnlAttribution_pairs. unfold with_options, attributionOf.
    cbn [options portfolioValue]. cbv zeta.
    rewrite !sum_pairs_map_snd. reflexivity.
Qed.

Lemma pnl_weighted_by_current_quantity_witness :
  let before := mkOption "A" Call (Fin 100) (Fin 100) (Fin 1) (Fin (1 / 5))
                  (Fin (1 / 20)) (Fin 10) in
  let now := mkOption "A" Call (Fin 102) (Fin 100) (Fin 1) (Fin (1 / 4))
               (Fin (1 / 20)) (Fin 7) in
  let cur := calculatePortfolioMetrics [now] in
  let prev := calculatePortfolioMetrics [before] in
  let prev' :=
    with_options (map (fun m => with_quantity (Fin 7) m) (options prev))
      prev in
  pnlAttribution cur (Some prev') None = pnlAttribution cur (Some prev) None.
Proof.
  cbv zeta.
  apply (pnl_weighted_by_current_quantity
           (calculatePortfolioMetrics
              [mkOption "A" Call (Fin 102) (Fin 100) (Fin 1) (Fin (1 / 4))
                 (Fin (1 / 20)) (Fin 7)])
           (calculatePortfolioMetrics
              [mkOption "A" Call (Fin 100) (Fin 100) (Fin 1) (Fin (1 / 5))
                 (Fin (1 / 20)) (Fin 10)])
           None (fun _ => Fin 7)).
  reflexivity.
Defined.

(** ** The pricing engine at maturity zero *)

Lemma div_by_zero (a b : R) :
  b = 0 -> (Fin a / Fin b)%num = inf_of_sign (Rsign a).
Proof.
  intros H. unfold div. destruct (Req_dec_T b 0); [reflexivity | contradiction].
Qed.

Lemma mul_pos_PosInf (a : R) : 0 < a -> (Fin a * PosInf)%num = PosInf.
Proof. intros H. unfold mul, sign_of. rewrite Rsign_pos by exact H. reflexivity. Qed.

Lemma mul_neg_PosInf (a : R) : a < 0 -> (Fin a * PosInf)%num = NegInf.
Proof. intros H. unfold mul, sign_of. rewrite Rsign_neg by exact H. reflexivity. Qed.

Lemma mul_neg_NegInf (a : R) : a < 0 -> (Fin a * NegInf)%num = PosInf.
Proof. intros H. unfold mul, sign_of. rewrite Rsign_neg by exact H. reflexivity. Qed.

Lemma mul_pos_NegInf (a : R) : 0 < a -> (Fin a * NegInf)%num = NegInf.
Proof. intros H. unfold mul, sign_of. rewrite Rsign_pos by exact H. reflexivity. Qed.

Lemma div_NegInf_pos (b : R) : 0 < b -> (NegInf / Fin b)%num = NegInf.
Proof. intros H. unfold div. destruct (Rlt_dec b 0); [lra | reflexivity]. Qed.

Lemma cdf_t_inf : (1 / (1 + 0.2316419 * PosInf))%num = Fin 0.
Proof. rewrite mul_pos_PosInf by lra. reflexivity. Qed.

Lemma cdf_d_inf : (0.3989423 * Math_exp (NegInf / 2))%num = Fin (0.3989423 * 0).
Proof. rewrite div_NegInf_pos by lra. reflexivity. Qed.

Lemma normalCDF_PosInf : normalCDF PosInf = Fin 1.
Proof.
  unfold normalCDF. cbv zeta.
  change (Math_abs PosInf) with PosInf.
  change (- PosInf * PosInf)%num with NegInf.
  rewrite cdf_t_inf, cdf_d_inf.
  simpl. apply Fin_eq. ring.
Qed.

Lemma normalCDF_NegInf : normalCDF NegInf = Fin 0.
Proof.
  unfold normalCDF. cbv zeta.
  change (Math_abs NegInf) with PosInf.
  change (- NegInf * NegInf)%num with NegInf.
  rewrite cdf_t_inf, cdf_d_inf.
  simpl. apply Fin_eq. ring.
Qed.

Lemma normalPDF_inf (x : num) :
  x = PosInf \/ x = NegInf -> normalPDF x = Fin 0.
Proof.
  intros Hx. unfold normalPDF, Math_PI. pose proof PI_RGT_0 as Hpi.
  assert (E : (-0.5 * x * x)%num = NegInf).
  { destruct Hx as [-> | ->].
    - rewrite mul_neg_PosInf by lra. reflexivity.
    - rewrite mul_neg_NegInf by lra. reflexivity. }
  rewrite E. cbn [Math_exp mul].
  rewrite Math_sqrt_Fin by lra.
  rewrite div_Fin by (apply sqrt_pos_ne; lra).
  apply Fin_eq. unfold Rdiv. ring.
Qed.

Lemma calculateD1D2_expired (S K r sigma : R) :
  0 < S -> 0 < K -> 0 < sigma ->
  calculateD1D2 (Fin S) (Fin K) (Fin 0) (Fin r) (Fin sigma)
  = let d := inf_of_sign (Rsign (ln (S / K))) in (d, d).
Proof.
  intros HS HK Hs.
  assert (HSK : 0 < S / K) by (apply Rdiv_lt_0_compat; assumption).
  assert (H2 : (2 : R) <> 0) by lra.
  unfold calculateD1D2.
  rewrite (div_Fin S K) by lra.
  rewrite (Math_log_Fin _ HSK).
  rewrite (Math_sqrt_Fin 0) by lra. rewrite sqrt_0.
  simpl.
  rewrite (div_Fin (sigma * sigma) 2 H2).
  simpl.
  rewrite div_by_zero by ring.
  replace (ln (S / K) + (r + sigma * sigma / 2) * 0) with (ln (S / K)) by ring.
  destruct (Rsign (ln (S / K))); reflexivity.
Qed.

Lemma moneyness_sign (S K : R) :
  0 < S -> 0 < K -> Rsign (ln (S / K)) = Rsign (S - K).
Proof.
  intros HS HK.
  assert (HSK : 0 < S / K) by (apply Rdiv_lt_0_compat; assumption).
  assert (E : S = S / K * K) by (field; lra).
  destruct (Rtotal_order S K) as [H | [H | H]].
  - assert (S / K < 1) by nra.
    pose proof (ln_increasing (S / K) 1 HSK H0) as Hl. rewrite ln_1 in Hl.
    rewrite !Rsign_neg by lra. reflexivity.
  - subst K. replace (S / S) with 1 by (field; lra). rewrite ln_1.
    rewrite !Rsign_zero by lra. reflexivity.
  - assert (1 < S / K) by nra.
    pose proof (ln_increasing 1 (S / K) ltac:(lra) H0) as Hl.
    rewrite ln_1 in Hl.
    rewrite !Rsign_pos by lra. reflexivity.
Qed.

Lemma Math_sqrt_0 : Math_sqrt (Fin 0) = Fin 0.
Proof. rewrite Math_sqrt_Fin by lra. rewrite sqrt_0. reflexivity. Qed.

Lemma sub_NaN_l (x : num) : (NaN - x)%num = NaN.
Proof. reflexivity. Qed.

Lemma mul_NaN_r (x : num) : (x * NaN)%num = NaN.
Proof. destruct x; reflexivity. Qed.

Lemma normalPDF_expired (c : comparison) :
  normalPDF (inf_of_sign c) = Fin 0 \/ normalPDF (inf_of_sign c) = NaN.
Proof.
  destruct c; cbn [inf_of_sign].
  - right. reflexivity.
  - left. apply normalPDF_inf. right. reflexivity.
  - left. apply normalPDF_inf. left. reflexivity.
Qed.

(** At maturity zero the general formulas divide [0] by [0]: gamma and
    theta are NaN. *)
Lemma expired_gamma_theta (tk : string) (ty : OptionType) (S K sigma r : R)
  (q : num) :
  0 < S -> 0 < K -> 0 < sigma ->
  let g := calculateGreeks
    (mkOption tk ty (Fin S) (Fin K) (Fin 0) (Fin sigma) (Fin r) q) in
  gamma g = NaN /\ theta g = NaN.
Proof.
  intros HS HK Hs. cbv zeta. unfold calculateGreeks.
  cbn [spotPrice strikePrice timeToExpiry riskFreeRate volatility type].
  rewrite calculateD1D2_expired by assumption. cbv zeta.
  cbn [gamma theta]. rewrite Math_sqrt_0.
  change (Fin S * Fin sigma * Fin 0)%num with (Fin (S * sigma * 0)).
  change (Fin 2 * Fin 0)%num with (Fin (2 * 0)).
  change (- Fin S * Fin sigma)%num with (Fin (- S * sigma)).
  destruct (normalPDF_expired (Rsign (ln (S / K)))) as [E | E]; rewrite E.
  - split.
    + rewrite div_by_zero by ring. rewrite Rsign_zero by reflexivity.
      reflexivity.
    + change (Fin (- S * sigma) * Fin 0)%num with (Fin (- S * sigma * 0)).
      rewrite div_by_zero by ring. rewrite Rsign_zero by ring.
      reflexivity.
  - split; reflexivity.
Qed.

Lemma exp_rate_0 (r : R) : exp (- r * 0) = 1.
Proof. replace (- r * 0) with 0 by ring. apply exp_0. Qed.

Ltac finish_expired :=
  simpl; apply Fin_eq; rewrite ?exp_rate_0;
  unfold intrinsic, in_the_money, sgn, Rmax;
  repeat match goal with
    | |- context [Rle_dec ?a ?b] => destruct (Rle_dec a b)
    | |- context [Rlt_dec ?a ?b] => destruct (Rlt_dec a b)
    end; lra.

Lemma expired_away_from_the_money (tk : string) (ty : OptionType)
  (S K sigma r : R) (q : num) :
  0 < S -> 0 < K -> 0 < sigma -> S <> K ->
  let o := mkOption tk ty (Fin S) (Fin K) (Fin 0) (Fin sigma) (Fin r) q in
  calculateOptionPrice o = Fin (intrinsic ty S K)
  /\ delta (calculateGreeks o) = Fin (sgn ty * in_the_money ty S K)
  /\ vega (calculateGreeks o) = Fin 0
  /\ rho (calculateGreeks o) = Fin 0.
Proof.
  intros HS HK Hs HSK. cbv zeta. unfold calculateOptionPrice, calculateGreeks.
  cbn [spotPrice strikePrice timeToExpiry riskFreeRate volatility type].
  rewrite calculateD1D2_expired by assumption. cbv zeta.
  cbn [delta vega rho]. rewrite Math_sqrt_0.
  rewrite moneyness_sign by assumption.
  destruct (Rtotal_order S K) as [H | [H | H]]; [| contradiction |].
  - rewrite Rsign_neg by lra. cbn [inf_of_sign neg].
    rewrite (normalPDF_inf NegInf) by (right; reflexivity).
    destruct ty.
    + rewrite mul_pos_NegInf by lra. rewrite normalCDF_NegInf.
      repeat split; finish_expired.
    + rewrite mul_neg_NegInf by lra.
      rewrite normalCDF_PosInf.
      repeat split; finish_expired.
  - rewrite Rsign_pos by lra. cbn [inf_of_sign neg].
    rewrite (normalPDF_inf PosInf) by (left; reflexivity).
    destruct ty.
    + rewrite mul_pos_PosInf by lra. rewrite normalCDF_PosInf.
      repeat split; finish_expired.
    + rewrite mul_neg_PosInf by lra.
      rewrite normalCDF_NegInf.
      repeat split; finish_expired.
Qed.

Lemma expired_at_the_money (tk : string) (ty : OptionType)
  (K sigma r : R) (q : num) :
  0 < K -> 0 < sigma ->
  let o := mkOption tk ty (Fin K) (Fin K) (Fin 0) (Fin sigma) (Fin r) q in
  calculateOptionPrice o = NaN
  /\ calculateGreeks o
     = {| delta := NaN; gamma := NaN; theta := NaN; vega := NaN;
          rho := NaN |}.
Proof.
  intros HK Hs. cbv zeta. unfold calculateOptionPrice, calculateGreeks.
  cbn [spotPrice strikePrice timeToExpiry riskFreeRate volatility type].
  rewrite calculateD1D2_expired by assumption. cbv zeta.
  rewrite moneyness_sign by assumption.
  rewrite Rsign_zero by ring. cbn [inf_of_sign neg].
  rewrite ?mul_NaN_r.
  change (normalCDF NaN) with NaN. change (normalPDF NaN) with NaN.
  rewrite ?mul_NaN_r.
  split.
  - destruct ty; reflexivity.
  - destruct ty; reflexivity.
Qed.

(** ** C4: a what-if maturity driven to zero *)

Lemma adjustOption_expired (tk : string) (ty : OptionType)
  (S K T sigma r mult days shift : R) (q pr tv : num) (gk : OptionGreeks) :
  T - days / 365 <= 0 ->
  adjustOption (mkTuning (Fin mult) (Fin days) (Fin shift))
    (mkMetrics (mkOption tk ty (Fin S) (Fin K) (Fin T) (Fin sigma) (Fin r) q)
       pr gk tv)
  = mkOption tk ty (Fin S) (Fin K) (Fin 0) (Fin (sigma * mult))
      (Fin (r + shift / 100)) q.
Proof.
  intros H. unfold adjustOption.
  cbn [contract ticker type spotPrice strikePrice timeToExpiry volatility
       riskFreeRate quantity volatilityMultiplier timeDecayDays rateShift].
  rewrite !div_Fin by lra.
  change (Fin T - Fin (days / 365))%num with (Fin (T - days / 365)).
  unfold Math_max, num_lt. rewrite Rltb_false by lra. reflexivity.
Qed.

(** C4 (as amended): when [maturity - timeDecayDays/365 <= 0] the what-if
    transform sets the new maturity to exactly [0] and the position is
    priced by the general formulas, with no special case.  For positive
    spot, strike and adjusted volatility: gamma and theta are NaN; away
    from the money the price is the intrinsic value, delta is
    [sign * 1[ITM]] and vega and rho are [0]; at the money the price and
    all five Greeks are NaN. *)
Theorem whatIf_expired_uses_general_formula (tk : string) (ty : OptionType)
  (S K T sigma r mult days shift : R) (q pr tv : num) (gk : OptionGreeks) :
  0 < S -> 0 < K -> 0 < sigma -> 0 < mult -> T - days / 365 <= 0 ->
  let position :=
    mkMetrics (mkOption tk ty (Fin S) (Fin K) (Fin T) (Fin sigma) (Fin r) q)
      pr gk tv in
  let params := mkTuning (Fin mult) (Fin days) (Fin shift) in
  let adjusted := adjustOption params position in
  let m := calculateOptionMetrics adjusted in
  (forall p : Portfolio,
      In position (options p) -> In m (options (whatIfPortfolio p params)))
  /\ timeToExpiry adjusted = Fin 0
  /\ gamma (greeks m) = NaN /\ theta (greeks m) = NaN
  /\ (S <> K ->
      price m = Fin (intrinsic ty S K)
      /\ delta (greeks m) = Fin (sgn ty * in_the_money ty S K)
      /\ vega (greeks m) = Fin 0 /\ rho (greeks m) = Fin 0)
  /\ (S = K ->
      price m = NaN
      /\ greeks m = {| delta := NaN; gamma := NaN; theta := NaN;
                       vega := NaN; rho := NaN |}).
Proof.
  intros HS HK Hs Hm HT position params adjusted m.
  assert (Hsm : 0 < sigma * mult) by nra.
  split.
  { intros p Hin. unfold whatIfPortfolio, calculatePortfolioMetrics.
    cbn [options]. rewrite map_map.
    apply (in_map (fun x => calculateOptionMetrics (adjustOption params x))
             _ _ Hin). }
  unfold m, adjusted, position, params.
  rewrite adjustOption_expired by assumption.
  unfold calculateOptionMetrics. cbn [price greeks timeToExpiry].
  split; [reflexivity |].
  pose proof (expired_gamma_theta tk ty S K (sigma * mult)
                (r + shift / 100) q HS HK Hsm) as [Hg Ht].
  split; [exact Hg | split; [exact Ht |]].
  split.
  - intros HSK.
    exact (expired_away_from_the_money tk ty S K (sigma * mult)
             (r + shift / 100) q HS HK Hsm HSK).
  - intros <-.
    exact (expired_at_the_money tk ty S (sigma * mult)
             (r + shift / 100) q HS Hsm).
Qed.

Lemma whatIf_expired_uses_general_formula_witness :
  let position :=
    mkMetrics (mkOption "X" Call (Fin 110) (Fin 100) (Fin (1 / 20))
                 (Fin (1 / 5)) (Fin (1 / 20)) (Fin 1))
      (Fin 0) zeroGreeks (Fin 0) in
  let params := mkTuning (Fin 1) (Fin 30) (Fin 0) in
  let m := calculateOptionMetrics (adjustOption params position) in
  gamma (greeks m) = NaN /\ theta (greeks m) = NaN.
Proof.
  cbv zeta.
  pose proof (whatIf_expired_uses_general_formula "X" Call 110 100 (1 / 20)
                (1 / 5) (1 / 20) 1 30 0 (Fin 1) (Fin 0) (Fin 0) zeroGreeks
                ltac:(lra) ltac:(lra) ltac:(lra) ltac:(lra) ltac:(lra)) as H.
  cbv zeta in H. destruct H as (_ & _ & Hg & Ht & _).
  split; [exact Hg | exact Ht].
Defined.

(** C4 (as stated) fails: an at-the-money call with 0.05 years left,
    decayed by 30 days, gets maturity [0]; its price is NaN, not the
    intrinsic value [0], and its gamma is NaN, not [0]. *)
Lemma whatIf_expired_at_the_money_is_NaN :
  let o := mkOption "X" Call (Fin 100) (Fin 100) (Fin (1 / 20))
             (Fin (1 / 5)) (Fin (1 / 20)) (Fin 1) in
  let params := mkTuning (Fin 1) (Fin 30) (Fin 0) in
  let p' := whatIfPortfolio (calculatePortfolioMetrics [o]) params in
  map (fun m => timeToExpiry (contract m)) (options p') = [Fin 0]
  /\ map price (options p') = [NaN]
  /\ map (fun m => gamma (greeks m)) (options p') = [NaN]
  /\ NaN <> Fin (intrinsic Call 100 100)
  /\ NaN <> Fin 0.
Proof.
  cbv zeta. unfold whatIfPortfolio, calculatePortfolioMetrics.
  cbn [options map]. unfold calculateOptionMetrics at 2 4 6.
  rewrite adjustOption_expired by lra.
  unfold calculateOptionMetrics. cbn [contract price greeks timeToExpiry].
  pose proof (expired_at_the_money "X" Call 100 (1 / 5 * 1) (1 / 20 + 0 / 100)
                (Fin 1) ltac:(lra) ltac:(lra)) as [Hp Hg].
  cbv zeta in Hp, Hg. rewrite Hp, Hg. cbn [gamma].
  repeat split; try reflexivity; discriminate.
Qed.

(** ** The bracketing loop *)

Lemma num_le_Fin (a b : R) : (Fin a <=? Fin b)%num = true <-> a <= b.
Proof.
  unfold num_le, num_lt, num_seq, Rltb, Reqb.
  destruct (Rlt_dec a b), (Req_dec_T a b); simpl; split; intros H;
    try reflexivity; try lra; discriminate.
Qed.

Lemma num_le_Fin_false (a b : R) : (Fin a <=? Fin b)%num = false <-> b < a.
Proof.
  pose proof (num_le_Fin a b) as H.
  destruct (Fin a <=? Fin b)%num; split; intros H'; try reflexivity;
    try discriminate.
  - assert (a <= b) by (apply H; reflexivity). lra.
  - destruct (Rle_dec a b) as [Hle | Hn]; [| lra].
    apply H in Hle. discriminate.
Qed.

Lemma get_Fin (ks : list R) (k : nat) :
  (k < List.length ks)%nat ->
  get (map Fin ks) (Z.of_nat k) = Fin (nth k ks 0).
Proof.
  intros H. unfold get.
  destruct (Z.ltb_spec (Z.of_nat k) 0); [lia |].
  rewrite Nat2Z.id.
  rewrite (nth_indep _ NaN (Fin 0)) by (rewrite length_map; exact H).
  apply (map_nth Fin).
Qed.

Lemma length_of_map (ks : list R) :
  length_of (map Fin ks) = Z.of_nat (List.length ks).
Proof. unfold length_of. rewrite length_map. reflexivity. Qed.

(** More fuel than the array is long changes nothing: the loop has left
    by then. *)
Lemma bracket_loop_fuel (arr : list num) (v : num) (fuel extra : nat)
  (i : Z) :
  (length_of arr - 1 - i <= Z.of_nat fuel)%Z ->
  bracket_loop (fuel + extra) arr v i = bracket_loop fuel arr v i.
Proof.
  revert i. induction fuel as [| fuel IH]; intros i H.
  - destruct extra as [| extra]; [reflexivity |]. simpl.
    destruct (Z.ltb_spec i (length_of arr - 1)); [lia |]. reflexivity.
  - simpl.
    destruct ((i <? length_of arr - 1)%Z && (get arr (i + 1) <=? v)%num);
      [| reflexivity].
    apply IH. lia.
Qed.

Lemma bracket_enough_fuel (arr : list num) (v : num) (extra : nat) :
  bracket_loop (List.length arr + extra) arr v 0 = bracket arr v.
Proof.
  unfold bracket. apply bracket_loop_fuel. unfold length_of. lia.
Qed.

(** The loop has really left: at the index it returns, its condition is
    false. *)
Lemma bracket_loop_exit (arr : list num) (v : num) (fuel : nat) (i : Z) :
  (length_of arr - 1 - i <= Z.of_nat fuel)%Z ->
  let i' := bracket_loop fuel arr v i in
  (i' <? length_of arr - 1)%Z && (get arr (i' + 1) <=? v)%num = false.
Proof.
  cbv zeta. revert i. induction fuel as [| fuel IH]; intros i H.
  - simpl. destruct (Z.ltb_spec i (length_of arr - 1)); [lia |]. reflexivity.
  - simpl.
    destruct ((i <? length_of arr - 1)%Z && (get arr (i + 1) <=? v)%num)
      eqn:E; [| exact E].
    apply IH. lia.
Qed.

Lemma bracket_exit (arr : list num) (v : num) :
  let i := bracket arr v in
  (i <? length_of arr - 1)%Z && (get arr (i + 1) <=? v)%num = false.
Proof.
  unfold bracket. apply bracket_loop_exit. unfold length_of. lia.
Qed.

Lemma bracket_loop_spec (ks : list R) (v : R) (fuel n : nat) :
  (n < List.length ks)%nat -> (List.length ks - 1 - n <= fuel)%nat ->
  exists m : nat,
    bracket_loop fuel (map Fin ks) (Fin v) (Z.of_nat n) = Z.of_nat m
    /\ (n <= m < List.length ks)%nat
    /\ (forall k, (n < k <= m)%nat -> nth k ks 0 <= v)
    /\ ((S m < List.length ks)%nat -> v < nth (S m) ks 0).
Proof.
  revert n. induction fuel as [| fuel IH]; intros n Hn Hfuel.
  - exists n. simpl. repeat split; try lia.
  - simpl. rewrite length_of_map.
    destruct (Z.ltb_spec (Z.of_nat n) (Z.of_nat (List.length ks) - 1))
      as [Hlt | Hge].
    + replace (Z.of_nat n + 1)%Z with (Z.of_nat (S n)) by lia.
      rewrite get_Fin by lia. cbn [andb].
      destruct (Fin (nth (S n) ks 0) <=? Fin v)%num eqn:E.
      * apply num_le_Fin in E.
        destruct (IH (S n) ltac:(lia) ltac:(lia)) as (m & Hm & Hr & Hle & Hx).
        exists m. split; [exact Hm |]. split; [lia |]. split; [| exact Hx].
        intros k Hk. destruct (Nat.eq_dec k (S n)) as [-> | Hne];
          [exact E | apply Hle; lia].
      * apply num_le_Fin_false in E.
        exists n. repeat split; try lia. intros _. exact E.
    + exists n. cbn [andb]. repeat split; try lia.
Qed.

Lemma bracket_spec (ks : list R) (v : R) :
  ks <> [] ->
  exists n : nat,
    bracket (map Fin ks) (Fin v) = Z.of_nat n
    /\ (n < List.length ks)%nat
    /\ (forall k, (0 < k <= n)%nat -> nth k ks 0 <= v)
    /\ ((S n < List.length ks)%nat -> v < nth (S n) ks 0).
Proof.
  intros Hne. unfold bracket. rewrite length_map.
  assert (Hlen : (0 < List.length ks)%nat) by (destruct ks; simpl; [congruence | lia]).
  destruct (bracket_loop_spec ks v (List.length ks) 0 Hlen ltac:(lia))
    as (m & Hm & Hr & Hle & Hx).
  exists m. repeat split; try assumption; lia.
Qed.

(** ** The interpolator on a well-formed grid *)

Lemma upper_of_lt (ks : list R) (n : nat) :
  (n < List.length ks)%nat -> (upper_of ks n < List.length ks)%nat.
Proof. unfold upper_of. lia. Qed.

Lemma axis_weight (ks : list R) (v : R) (n : nat) :
  increasing ks ->
  bracket (map Fin ks) (Fin v) = Z.of_nat n ->
  (n < List.length ks)%nat ->
  upper_index (map Fin ks) (Z.of_nat n) = Z.of_nat (upper_of ks n)
  /\ weight (map Fin ks) (Fin v)
     = Fin ((v - nth n ks 0) / guarded_den ks n).
Proof.
  intros Hinc Hb Hn.
  assert (Hu : upper_index (map Fin ks) (Z.of_nat n)
               = Z.of_nat (upper_of ks n)).
  { unfold upper_index, upper_of. rewrite length_of_map. lia. }
  split; [exact Hu |].
  unfold weight. rewrite Hb, Hu.
  rewrite !get_Fin by (try apply upper_of_lt; exact Hn).
  change (Fin v - Fin (nth n ks 0))%num with (Fin (v - nth n ks 0)).
  change (Fin (nth (upper_of ks n) ks 0) - Fin (nth n ks 0))%num
    with (Fin (nth (upper_of ks n) ks 0 - nth n ks 0)).
  unfold guarded_den, or_else, truthy, upper_of.
  destruct (Nat.ltb_spec (S n) (List.length ks)) as [Hlt | Hge].
  - replace (Nat.min (S n) (List.length ks - 1)) with (S n) by lia.
    pose proof (Hinc n (S n) ltac:(lia)) as Hlt'.
    rewrite Reqb_false by lra. cbn [negb].
    rewrite div_Fin by lra. reflexivity.
  - replace (Nat.min (S n) (List.length ks - 1)) with n by lia.
    rewrite Reqb_true by lra. cbn [negb].
    rewrite div_Fin by lra. reflexivity.
Qed.

Lemma interpolateVol_Fin (data : VolSurfaceData) (ks ms : list R)
  (cell : nat -> nat -> R) (strike maturity : R) (i1 j1 : nat) :
  grid_ok data ks ms cell ->
  bracket (map Fin ks) (Fin strike) = Z.of_nat i1 ->
  (i1 < List.length ks)%nat ->
  bracket (map Fin ms) (Fin maturity) = Z.of_nat j1 ->
  (j1 < List.length ms)%nat ->
  let i2 := upper_of ks i1 in
  let j2 := upper_of ms j1 in
  let x := (strike - nth i1 ks 0) / guarded_den ks i1 in
  let y := (maturity - nth j1 ms 0) / guarded_den ms j1 in
  interpolateVol (Fin strike) (Fin maturity) data
  = Normal (Fin (bilinear (cell j1 i1) (cell j1 i2) (cell j2 i1)
                   (cell j2 i2) x y)).
Proof.
  intros (Hk & Hm & Hik & Him & Hcell) Hbi Hi Hbj Hj. cbv zeta.
  destruct (axis_weight ks strike i1 Hik Hbi Hi) as [Hui Hwi].
  destruct (axis_weight ms maturity j1 Him Hbj Hj) as [Huj Hwj].
  pose proof (upper_of_lt ks i1 Hi) as Hi2.
  pose proof (upper_of_lt ms j1 Hj) as Hj2.
  unfold interpolateVol. rewrite Hk, Hm.
  rewrite Hbi, Hbj, Hui, Huj, Hwi, Hwj.
  rewrite !Hcell by assumption.
  reflexivity.
Qed.

Lemma bracket_at_grid_point (ks : list R) (i : nat) :
  increasing ks -> (i < List.length ks)%nat ->
  bracket (map Fin ks) (Fin (nth i ks 0)) = Z.of_nat i.
Proof.
  intros Hinc Hi.
  assert (Hne : ks <> []) by (destruct ks; simpl in *; [lia | congruence]).
  destruct (bracket_spec ks (nth i ks 0) Hne) as (n & Hb & Hn & Hle & Hx).
  rewrite Hb. f_equal.
  destruct (Nat.lt_trichotomy n i) as [H | [H | H]]; [| exact H |].
  - exfalso. specialize (Hx ltac:(lia)).
    destruct (Nat.eq_dec (S n) i) as [E | E].
    + rewrite E in Hx. lra.
    + pose proof (Hinc (S n) i ltac:(lia)). lra.
  - exfalso. specialize (Hle n ltac:(lia)).
    pose proof (Hinc i n ltac:(lia)). lra.
Qed.


(** ** The grid built from finite rows *)

Lemma filter_map_Fin (f : num -> bool) (l : list R) :
  filter f (map Fin l) = map Fin (filter (fun y => f (Fin y)) l).
Proof.
  induction l as [| y l IH]; simpl; [reflexivity |].
  rewrite IH. destruct (f (Fin y)); reflexivity.
Qed.

Lemma Reqb_spec (a b : R) : Reqb a b = true <-> a = b.
Proof.
  unfold Reqb. destruct (Req_dec_T a b); split; intros H; try reflexivity;
    try assumption; try discriminate; contradiction.
Qed.

Lemma set_values_Fin (rs : list R) :
  exists rs' : list R,
    set_values (map Fin rs) = map Fin rs'
    /\ NoDup rs' /\ (forall x, In x rs' <-> In x rs).
Proof.
  induction rs as [| x rs (rs1 & E & Hnd & Hin)].
  - exists []. simpl. repeat split; auto using NoDup_nil.
  - exists (x :: filter (fun y => negb (Reqb x y)) rs1).
    cbn [map set_values]. rewrite E, filter_map_Fin.
    split; [reflexivity |]. split.
    + constructor.
      * rewrite filter_In. intros [_ H].
        rewrite (proj2 (Reqb_spec x x) eq_refl) in H. discriminate.
      * apply NoDup_filter. exact Hnd.
    + intros y. cbn [In]. rewrite filter_In, Hin. split.
      * intros [H | [H _]]; auto.
      * intros [H | H]; [left; exact H |].
        destruct (Req_dec_T x y) as [Hxy | Hxy]; [left; exact Hxy |].
        right. split; [exact H |].
        destruct (Reqb x y) eqn:Eb; [| reflexivity].
        apply Reqb_spec in Eb. contradiction.
Qed.

Lemma sort_insert_Fin (x : R) (l : list R) :
  StronglySorted Rle l ->
  exists l' : list R,
    sort_insert (fun a b => (a - b)%num) (Fin x) (map Fin l) = map Fin l'
    /\ Permutation (x :: l) l' /\ StronglySorted Rle l'.
Proof.
  induction l as [| y l IH]; intros Hs.
  - exists [x]. simpl. repeat split; auto.
    constructor; constructor.
  - cbn [map sort_insert].
    change (Fin x - Fin y)%num with (Fin (x - y)).
    unfold num_lt, Rltb.
    destruct (Rlt_dec (x - y) 0) as [Hlt | Hge].
    + exists (x :: y :: l). repeat split; auto.
      constructor; [exact Hs |].
      inversion Hs as [| ? ? Hs' Hall]; subst.
      constructor; [lra |].
      eapply Forall_impl; [| exact Hall]. intros z Hz. simpl in Hz. lra.
    + inversion Hs as [| ? ? Hs' Hall]; subst.
      destruct (IH Hs') as (l' & E & Hp & Hs2).
      exists (y :: l'). rewrite E. split; [reflexivity |]. split.
      * rewrite perm_swap. constructor. exact Hp.
      * constructor; [exact Hs2 |].
        apply (Permutation_Forall Hp). constructor; [lra | exact Hall].
Qed.

Lemma sort_Fin_acc (rs acc : list R) :
  StronglySorted Rle acc ->
  exists l' : list R,
    fold_left (fun sorted x => sort_insert (fun a b => (a - b)%num) x sorted)
      (map Fin rs) (map Fin acc) = map Fin l'
    /\ Permutation (rs ++ acc) l' /\ StronglySorted Rle l'.
Proof.
  revert acc. induction rs as [| x rs IH]; intros acc Hs.
  - exists acc. simpl. repeat split; auto.
  - cbn [map fold_left].
    destruct (sort_insert_Fin x acc Hs) as (acc' & E & Hp & Hs').
    rewrite E.
    destruct (IH acc' Hs') as (l' & E' & Hp' & Hs'').
    exists l'. split; [exact E' |]. split; [| exact Hs''].
    etransitivity; [| exact Hp'].
    cbn [app]. rewrite <- Hp. apply Permutation_middle.
Qed.

Lemma sort_Fin (rs : list R) :
  exists l' : list R,
    sort (fun a b => (a - b)%num) (map Fin rs) = map Fin l'
    /\ Permutation rs l' /\ StronglySorted Rle l'.
Proof.
  destruct (sort_Fin_acc rs [] (SSorted_nil Rle)) as (l' & E & Hp & Hs).
  exists l'. rewrite app_nil_r in Hp. repeat split; assumption.
Qed.

Lemma sorted_NoDup_increasing (l : list R) :
  StronglySorted Rle l -> NoDup l -> increasing l.
Proof.
  intros Hs. induction Hs as [| x l Hs IH Hall]; intros Hnd a b Hab.
  - simpl in Hab. lia.
  - inversion Hnd as [| ? ? Hnotin Hnd']; subst.
    destruct b as [| b]; [lia |]. simpl in Hab.
    destruct a as [| a]; cbn [nth].
    + assert (Hin : In (nth b l 0) l) by (apply nth_In; lia).
      rewrite Forall_forall in Hall. specialize (Hall _ Hin).
      destruct Hall as [Hlt | Heq]; [exact Hlt |].
      exfalso. apply Hnotin. rewrite Heq. exact Hin.
    + apply IH; [exact Hnd' | lia].
Qed.

(** The sorted set of the distinct values of a finite column. *)
Lemma axis_Fin (rs : list R) :
  exists ks : list R,
    sort (fun a b => (a - b)%num) (set_values (map Fin rs)) = map Fin ks
    /\ increasing ks /\ (forall x, In x ks <-> In x rs).
Proof.
  destruct (set_values_Fin rs) as (rs1 & E1 & Hnd & Hin).
  destruct (sort_Fin rs1) as (ks & E2 & Hp & Hs).
  exists ks. rewrite E1, E2. split; [reflexivity |]. split.
  - apply sorted_NoDup_increasing; [exact Hs |].
    apply (Permutation_NoDup Hp Hnd).
  - intros x. rewrite <- Hin. split; intros H.
    + apply (Permutation_in x (Permutation_sym Hp) H).
    + apply (Permutation_in x Hp H).
Qed.

Lemma find_map {A B : Type} (f : B -> bool) (g : A -> B) (l : list A) :
  find f (map g l) = option_map g (find (fun a => f (g a)) l).
Proof.
  induction l as [| a l IH]; simpl; [reflexivity |].
  destruct (f (g a)); [reflexivity | exact IH].
Qed.

Lemma built_cell (rows : list (R * R * R)) (k m : R) :
  match find (fun d => (row_strike d === Fin k)%num
                       && (row_maturity d === Fin m)%num) (finite_rows rows)
  with
  | Some point => row_volatility point
  | None => Fin 0
  end = Fin (stored_vol rows k m).
Proof.
  unfold finite_rows, stored_vol. rewrite find_map.
  cbn [row_strike row_maturity num_seq].
  destruct (find _ rows); reflexivity.
Qed.

Lemma buildSurface_ok (rows : list (R * R * R)) :
  exists ks ms : list R,
    grid_ok (buildSurface (finite_rows rows)) ks ms
      (fun j i => stored_vol rows (nth i ks 0) (nth j ms 0))
    /\ (forall x, In x ks <-> In x (map (fun r => fst (fst r)) rows))
    /\ (forall x, In x ms <-> In x (map (fun r => snd (fst r)) rows)).
Proof.
  destruct (axis_Fin (map (fun r => fst (fst r)) rows))
    as (ks & Ek & Hik & Hink).
  destruct (axis_Fin (map (fun r => snd (fst r)) rows))
    as (ms & Em & Him & Hinm).
  exists ks, ms. split; [| split; assumption].
  unfold grid_ok, buildSurface.
  cbn [strikes maturities volatilities].
  assert (Es : map row_strike (finite_rows rows)
               = map Fin (map (fun r => fst (fst r)) rows)).
  { unfold finite_rows. rewrite !map_map. reflexivity. }
  assert (Et : map row_maturity (finite_rows rows)
               = map Fin (map (fun r => snd (fst r)) rows)).
  { unfold finite_rows. rewrite !map_map. reflexivity. }
  rewrite Es, Et, Ek, Em.
  repeat split; try assumption.
  intros j i Hj Hi. unfold get_cell, get_row, get.
  destruct (Z.ltb_spec (Z.of_nat j) 0); [lia |].
  destruct (Z.ltb_spec (Z.of_nat i) 0); [lia |].
  rewrite !Nat2Z.id.
  rewrite map_map.
  rewrite (nth_error_map _ j ms).
  rewrite (nth_error_nth' ms 0 Hj). cbn [option_map].
  rewrite map_map. f_equal.
  rewrite (nth_indep _ NaN
             (match find (fun d => (row_strike d === Fin 0)%num
                                   && (row_maturity d === Fin (nth j ms 0))%num)
                      (finite_rows rows)
              with Some point => row_volatility point | None => Fin 0 end))
    by (rewrite length_map; exact Hi).
  rewrite (map_nth (fun x => match find (fun d => (row_strike d === Fin x)%num
                                   && (row_maturity d === Fin (nth j ms 0))%num)
                      (finite_rows rows)
              with Some point => row_volatility point | None => Fin 0 end)).
  apply built_cell.
Qed.

(** ** C6: exactness at the grid points *)


(** ** A sample surface *)




Lemma sample_grid_ok :
  grid_ok sample_surface [100; 110] [1; 2] sample_cell.
Proof.
  unfold grid_ok, sample_surface. cbn [strikes maturities volatilities map].
  repeat split.
  - intros a b Hab. simpl in Hab.
    destruct a as [| [| a]]; destruct b as [| [| b]]; try lia. simpl. lra.
  - intros a b Hab. simpl in Hab.
    destruct a as [| [| a]]; destruct b as [| [| b]]; try lia. simpl. lra.
  - intros j i Hj Hi. simpl in Hj, Hi.
    destruct j as [| [| j]]; try lia; destruct i as [| [| i]]; try lia;
      reflexivity.
Qed.

(** ** C7: queries off the grid *)











(** * Further properties *)

(** ** The normal distribution functions *)

(** The CDF approximation maps every finite argument into [[0, 1]] and
    is above one half exactly for a positive argument (so [N(0)] is under
    one half); at the infinities it is [1] and [0], and NaN stays NaN. *)
Theorem normalCDF_range (x : R) :
  (exists v : R,
      normalCDF (Fin x) = Fin v /\ 0 <= v <= 1 /\ (1 / 2 < v <-> 0 < x))
  /\ normalCDF PosInf = Fin 1
  /\ normalCDF NegInf = Fin 0
  /\ normalCDF NaN = NaN.
Proof.
  split; [| split; [exact normalCDF_PosInf
                   | split; [exact normalCDF_NegInf | reflexivity]]].
  exists (normalCDF_R x). split; [apply normalCDF_Fin |].
  split; [apply normalCDF_R_bounds |].
  pose proof (normalCDF_tail_bounds x) as H. unfold normalCDF_R.
  destruct (Rlt_dec 0 x); split; intros; lra.
Qed.

(** Away from zero the CDF approximation is symmetric:
    [N(x) + N(-x) = 1]. *)
Theorem normalCDF_symmetric (x : R) :
  x <> 0 -> (normalCDF (Fin x) + normalCDF (- Fin x))%num = Fin 1.
Proof.
  intros Hx. cbn [neg]. rewrite !normalCDF_Fin. cbn [add].
  apply Fin_eq. apply normalCDF_R_symm. exact Hx.
Qed.

Lemma normalCDF_symmetric_witness :
  (normalCDF (Fin 2) + normalCDF (- Fin 2))%num = Fin 1.
Proof. apply (normalCDF_symmetric 2). lra. Defined.


(** ** Prices and Greeks of one contract *)





(** Vega and gamma of one contract are tied by
    [vega = gamma * S^2 * sigma * T]. *)
Theorem vega_gamma_identity (tk : string) (ty : OptionType)
  (S K T sigma r : R) (q : num) :
  0 < S -> 0 < K -> 0 < T -> 0 < sigma ->
  let g := calculateGreeks
    (mkOption tk ty (Fin S) (Fin K) (Fin T) (Fin sigma) (Fin r) q) in
  exists gm v : R,
    gamma g = Fin gm /\ vega g = Fin v /\ v = gm * S * S * sigma * T.
Proof.
  intros HS HK HT Hs g. unfold g.
  rewrite calculateGreeks_Fin by assumption. cbv zeta. cbn [gamma vega].
  eexists. eexists. split; [reflexivity |]. split; [reflexivity |].
  pose proof (sqrt_lt_R0 T HT) as HsT.
  pose proof (sqrt_sqrt T ltac:(lra)) as Hsq.
  set (w := sqrt T) in *.
  rewrite <- Hsq. field. repeat split; lra.
Qed.

Lemma vega_gamma_identity_witness :
  let g := calculateGreeks
    (mkOption "X" Put (Fin 100) (Fin 90) (Fin 2) (Fin (1 / 5))
       (Fin (1 / 20)) (Fin 1)) in
  exists gm v : R,
    gamma g = Fin gm /\ vega g = Fin v
    /\ v = gm * 100 * 100 * (1 / 5) * 2.
Proof.
  apply (vega_gamma_identity "X" Put 100 90 2 (1 / 5) (1 / 20) (Fin 1)); lra.
Defined.



(** ** Aggregation *)



(** ** Scenario transforms *)

(** A stress test keeps the number and order of the positions and their
    ticker, type, strike, maturity and quantity; a what-if tuning keeps
    their ticker, type, spot, strike and quantity. *)
Theorem scenarios_keep_positions (p : Portfolio) (s : StressParams)
  (t : TuningParams) :
  map (fun m => unstressed (contract m)) (options (runStressTest p s))
  = map (fun m => unstressed (contract m)) (options p)
  /\ map (fun m => untuned (contract m)) (options (whatIfPortfolio p t))
     = map (fun m => untuned (contract m)) (options p).
Proof.
  unfold runStressTest, whatIfPortfolio, calculatePortfolioMetrics.
  cbn [options]. rewrite !map_map. split; apply map_ext; intros m;
    reflexivity.
Qed.

(** Whatever the tuning, no position leaves the what-if transform with a
    negative maturity. *)
Theorem whatIf_maturity_never_negative (p : Portfolio) (t : TuningParams) :
  Forall (fun m => (timeToExpiry (contract m) <? 0)%num = false)
         (options (whatIfPortfolio p t)).
Proof.
  unfold whatIfPortfolio, calculatePortfolioMetrics. cbn [options].
  rewrite map_map. apply Forall_forall. intros m Hin.
  apply in_map_iff in Hin. destruct Hin as (m0 & <- & _).
  cbn [contract calculateOptionMetrics adjustOption timeToExpiry].
  set (y := (timeToExpiry (contract m0) - timeDecayDays t / 365)%num).
  unfold Math_max.
  destruct y as [r | | |]; try reflexivity.
  - cbn [num_lt]. destruct (Rlt_dec 0 r) as [H | H].
    + rewrite (Rltb_true 0 r) by exact H. cbn [num_lt].
      apply Rltb_false. lra.
    + rewrite (Rltb_false 0 r) by lra. cbn [num_lt].
      apply Rltb_false. lra.
  - cbn [num_lt]. apply Rltb_false. lra.
Qed.

Lemma stressOption_compose (a va ra b vb rb : R) (m : OptionMetrics) :
  finite_market m ->
  stressOption (mkStress (Fin b) (Fin vb) (Fin rb))
    (calculateOptionMetrics
       (stressOption (mkStress (Fin a) (Fin va) (Fin ra)) m))
  = stressOption
      (mkStress (Fin (a + b + a * b / 100)) (Fin (va + vb + va * vb / 100))
         (Fin (ra + rb))) m.
Proof.
  intros (s & t & v & r & Es & Et & Ev & Er).
  unfold stressOption.
  cbn [contract calculateOptionMetrics ticker type spotPrice strikePrice
       timeToExpiry volatility riskFreeRate quantity spotPriceChange
       volatilityChange rateChange].
  rewrite Es, Ev, Er. rewrite !div_Fin by lra. cbn [add mul].
  f_equal; apply Fin_eq; field.
Qed.

(** Two stress tests in a row amount to one: the spot and volatility
    shocks compound ([a + b + a b / 100] per cent) and the rate shifts
    add, for positions with finite market data. *)
Theorem stress_tests_compose (p : Portfolio) (a va ra b vb rb : R) :
  Forall finite_market (options p) ->
  runStressTest
    (runStressTest p (mkStress (Fin a) (Fin va) (Fin ra)))
    (mkStress (Fin b) (Fin vb) (Fin rb))
  = runStressTest p
      (mkStress (Fin (a + b + a * b / 100)) (Fin (va + vb + va * vb / 100))
         (Fin (ra + rb))).
Proof.
  intros Hfin. unfold runStressTest at 1 3. f_equal.
  unfold runStressTest, calculatePortfolioMetrics. cbn [options].
  rewrite !map_map. apply map_ext_in. intros m Hin.
  apply stressOption_compose.
  rewrite Forall_forall in Hfin. apply Hfin. exact Hin.
Qed.

Lemma stress_tests_compose_witness :
  let p :=
    mkPortfolio
      [mkMetrics
         (mkOption "X" Call (Fin 100) (Fin 100) (Fin 1) (Fin (1 / 5))
            (Fin (1 / 20)) (Fin 3))
         (Fin 10) zeroGreeks (Fin 30)]
      (Fin 30) zeroGreeks in
  runStressTest (runStressTest p (mkStress (Fin 10) (Fin 0) (Fin 1)))
    (mkStress (Fin 10) (Fin 5) (Fin (-1)))
  = runStressTest p
      (mkStress (Fin (10 + 10 + 10 * 10 / 100)) (Fin (0 + 5 + 0 * 5 / 100))
         (Fin (1 + -1))).
Proof.
  cbv zeta. apply stress_tests_compose.
  constructor; [| constructor].
  exists 100, 1, (1 / 5), (1 / 20). repeat split; reflexivity.
Defined.

(** The sliders at rest (volatility multiplier [1], no decay, no rate
    shift) give back the aggregated portfolio, provided no maturity is
    negative. *)
Theorem whatIf_at_rest (opts : list Option) :
  Forall (fun o => (timeToExpiry o <? 0)%num = false) opts ->
  whatIfPortfolio (calculatePortfolioMetrics opts)
    (mkTuning (Fin 1) (Fin 0) (Fin 0))
  = calculatePortfolioMetrics opts.
Proof.
  intros Hpos. unfold whatIfPortfolio. f_equal.
  cbn [options calculatePortfolioMetrics]. rewrite map_map.
  rewrite <- (map_id opts) at 2. apply map_ext_in. intros o Hin.
  rewrite Forall_forall in Hpos. specialize (Hpos o Hin).
  destruct o as [tk ty s k t v r q]. unfold adjustOption.
  cbn [contract calculateOptionMetrics ticker type spotPrice strikePrice
       timeToExpiry volatility riskFreeRate quantity volatilityMultiplier
       timeDecayDays rateShift] in *.
  rewrite !div_Fin by lra.
  rewrite (mul_1_r v 1) by reflexivity.
  rewrite (add_zero_r r (0 / 100)) by lra.
  assert (Et : (t - Fin (0 / 365))%num = t).
  { unfold sub. cbn [neg]. apply add_zero_r. lra. }
  rewrite Et.
  assert (Em : Math_max (Fin 0) t = t).
  { destruct t as [x | | |]; try reflexivity.
    - cbn [num_lt] in Hpos. unfold Math_max. cbn [num_lt].
      unfold Rltb in *. destruct (Rlt_dec x 0); [discriminate |].
      destruct (Rlt_dec 0 x); [reflexivity |]. apply Fin_eq. lra.
    - cbn in Hpos. discriminate. }
  rewrite Em. reflexivity.
Qed.

Lemma whatIf_at_rest_witness :
  let opts :=
    [mkOption "X" Call (Fin 100) (Fin 100) (Fin (1 / 2)) (Fin (1 / 5))
       (Fin (1 / 20)) (Fin 3)] in
  whatIfPortfolio (calculatePortfolioMetrics opts)
    (mkTuning (Fin 1) (Fin 0) (Fin 0))
  = calculatePortfolioMetrics opts.
Proof.
  cbv zeta. apply whatIf_at_rest.
  constructor; [| constructor].
  cbn [timeToExpiry num_lt]. apply Rltb_false. lra.
Defined.

Lemma adjustOption_compose (m1 d1 s1 m2 d2 s2 : R) (m : OptionMetrics) :
  0 <= d1 -> 0 <= d2 -> finite_market m ->
  adjustOption (mkTuning (Fin m2) (Fin d2) (Fin s2))
    (calculateOptionMetrics
       (adjustOption (mkTuning (Fin m1) (Fin d1) (Fin s1)) m))
  = adjustOption
      (mkTuning (Fin (m1 * m2)) (Fin (d1 + d2)) (Fin (s1 + s2))) m.
Proof.
  intros Hd1 Hd2 (s & t & v & r & Es & Et & Ev & Er).
  unfold adjustOption.
  cbn [contract calculateOptionMetrics ticker type spotPrice strikePrice
       timeToExpiry volatility riskFreeRate quantity volatilityMultiplier
       timeDecayDays rateShift].
  rewrite Et, Ev, Er. rewrite !div_Fin by lra. cbn [add sub mul neg].
  assert (Emax : forall x : R,
             Math_max (Fin 0) (Fin x) = Fin (Rmax 0 x)).
  { intros x. unfold Math_max. cbn [num_lt]. unfold Rltb, Rmax.
    destruct (Rlt_dec 0 x), (Rle_dec 0 x); try reflexivity; try lra.
    apply Fin_eq. lra. }
  rewrite (Emax (t + - (d1 / 365))). cbn [add sub neg].
  rewrite !Emax.
  assert (Ed : Rmax 0 (Rmax 0 (t + - (d1 / 365)) + - (d2 / 365))
               = Rmax 0 (t + - ((d1 + d2) / 365))).
  { unfold Rmax.
    destruct (Rle_dec 0 (t + - (d1 / 365)));
      destruct (Rle_dec 0 (t + - ((d1 + d2) / 365)));
      match goal with
      | |- context [Rle_dec 0 ?w] => destruct (Rle_dec 0 w)
      end; lra. }
  rewrite Ed.
  f_equal; apply Fin_eq; field.
Qed.

(** Two what-if tunings in a row amount to one: the volatility
    multipliers multiply, the decay days add up (the floor at zero
    maturity is kept) and the rate shifts add, for positions with finite
    market data and decays that are not negative. *)
Theorem whatIf_tunings_compose (p : Portfolio) (m1 d1 s1 m2 d2 s2 : R) :
  0 <= d1 -> 0 <= d2 -> Forall finite_market (options p) ->
  whatIfPortfolio
    (whatIfPortfolio p (mkTuning (Fin m1) (Fin d1) (Fin s1)))
    (mkTuning (Fin m2) (Fin d2) (Fin s2))
  = whatIfPortfolio p
      (mkTuning (Fin (m1 * m2)) (Fin (d1 + d2)) (Fin (s1 + s2))).
Proof.
  intros Hd1 Hd2 Hfin. unfold whatIfPortfolio at 1 3. f_equal.
  unfold whatIfPortfolio, calculatePortfolioMetrics. cbn [options].
  rewrite !map_map. apply map_ext_in. intros m Hin.
  apply adjustOption_compose; try assumption.
  rewrite Forall_forall in Hfin. apply Hfin. exact Hin.
Qed.

Lemma whatIf_tunings_compose_witness :
  let p :=
    mkPortfolio
      [mkMetrics
         (mkOption "X" Call (Fin 100) (Fin 100) (Fin (1 / 20)) (Fin (1 / 5))
            (Fin (1 / 20)) (Fin 3))
         (Fin 10) zeroGreeks (Fin 30)]
      (Fin 30) zeroGreeks in
  whatIfPortfolio
    (whatIfPortfolio p (mkTuning (Fin 2) (Fin 10) (Fin 1)))
    (mkTuning (Fin (1 / 2)) (Fin 20) (Fin 1))
  = whatIfPortfolio p
      (mkTuning (Fin (2 * (1 / 2))) (Fin (10 + 20)) (Fin (1 + 1))).
Proof.
  cbv zeta. apply whatIf_tunings_compose; try lra.
  constructor; [| constructor].
  exists 100, (1 / 20), (1 / 5), (1 / 20). repeat split; reflexivity.
Defined.

(** ** P&L attribution of finite snapshots *)

Lemma sum_pairs_finite (f : OptionMetrics -> OptionMetrics -> num)
  (pairs : list (OptionMetrics * OptionMetrics)) :
  (forall c p, In (c, p) pairs -> exists x : R, f c p = Fin x) ->
  exists v : R, sum_pairs f pairs = Fin v.
Proof.
  induction pairs as [| [c p] pairs IH]; intros H.
  - exists 0. reflexivity.
  - destruct (H c p (or_introl eq_refl)) as [x Ex].
    destruct IH as [v Ev]; [intros c' p' Hin; apply H; right; exact Hin |].
    exists (x + v). cbn [sum_pairs fold_right fst snd].
    fold (sum_pairs f pairs). rewrite Ex, Ev. reflexivity.
Qed.

Lemma sum_pairs_zero (f : OptionMetrics -> OptionMetrics -> num)
  (pairs : list (OptionMetrics * OptionMetrics)) :
  (forall c p, In (c, p) pairs -> f c p = Fin 0) ->
  sum_pairs f pairs = Fin 0.
Proof.
  induction pairs as [| [c p] pairs IH]; intros H.
  - reflexivity.
  - cbn [sum_pairs fold_right fst snd]. fold (sum_pairs f pairs).
    rewrite (H c p (or_introl eq_refl)).
    rewrite IH by (intros c' p' Hin; apply H; right; exact Hin).
    apply Fin_eq. ring.
Qed.

Lemma in_combine_same {A : Type} (l : list A) (x y : A) :
  In (x, y) (combine l l) -> x = y /\ In x l.
Proof.
  induction l as [| a l IH]; simpl; [tauto |].
  intros [H | H].
  - injection H as <- <-. auto.
  - destruct (IH H). auto.
Qed.

Lemma finite_terms (t : R) (c p : OptionMetrics) :
  finite_position c -> finite_position p ->
  let q := quantity (contract c) in
  (exists x, deltaTerm q c p = Fin x)
  /\ (exists x, gammaTerm q c p = Fin x)
  /\ (exists x, thetaTerm (Fin t) q p = Fin x)
  /\ (exists x, vegaTerm q c p = Fin x)
  /\ (exists x, rhoTerm q c p = Fin x).
Proof.
  intros ((sc & tc & vc & rc & Esc & _ & Evc & Erc) & (qc & Eqc) & _)
         ((sp & tp & vp & rp & Esp & _ & Evp & Erp) & _
          & (d & g & th & v & rh & Eg)).
  cbv zeta. unfold deltaTerm, gammaTerm, thetaTerm, vegaTerm, rhoTerm.
  rewrite Esc, Evc, Erc, Eqc, Esp, Evp, Erp, Eg.
  cbn [delta gamma theta vega rho]. rewrite div_Fin by lra.
  cbn [add sub mul neg].
  repeat split; eexists; reflexivity.
Qed.

(** For two snapshots of finite numbers the attribution reconciles: the
    five components and the unexplained residual add up to the total,
    which is the difference of the two portfolio values. *)
Theorem pnl_reconciles (cur prev : Portfolio) (t a b : R) :
  Forall finite_position (options cur) ->
  Forall finite_position (options prev) ->
  portfolioValue cur = Fin a -> portfolioValue prev = Fin b ->
  exists att : PnLComponents,
    pnlAttribution cur (Some prev) (Some (Fin t)) = Normal (Some att)
    /\ total att = Fin (a - b)
    /\ (pnl_delta att + pnl_gamma att + pnl_theta att + pnl_vega att
        + pnl_rho att + unexplained att)%num
       = total att.
Proof.
  intros Hc Hp Ea Eb. rewrite pnlAttribution_pairs.
  eexists. split; [reflexivity |].
  unfold attributionOf, elapsed. cbv zeta.
  cbn [total pnl_delta pnl_gamma pnl_theta pnl_vega pnl_rho unexplained].
  rewrite Ea, Eb. cbn [sub add neg].
  assert (Hterms : forall c p,
             In (c, p) (combine (options cur) (options prev)) ->
             finite_position c /\ finite_position p).
  { intros c p Hin. rewrite Forall_forall in Hc, Hp. split.
    - apply Hc. exact (in_combine_l _ _ _ _ Hin).
    - apply Hp. exact (in_combine_r _ _ _ _ Hin). }
  set (pairs := combine (options cur) (options prev)) in *.
  destruct (sum_pairs_finite
              (fun c p => deltaTerm (quantity (contract c)) c p) pairs)
    as [d Ed].
  { intros c p Hin. destruct (Hterms c p Hin) as [H1 H2].
    apply (finite_terms t c p H1 H2). }
  destruct (sum_pairs_finite
              (fun c p => gammaTerm (quantity (contract c)) c p) pairs)
    as [g Eg].
  { intros c p Hin. destruct (Hterms c p Hin) as [H1 H2].
    apply (finite_terms t c p H1 H2). }
  destruct (sum_pairs_finite
              (fun c p => thetaTerm (Fin t) (quantity (contract c)) p) pairs)
    as [th Eth].
  { intros c p Hin. destruct (Hterms c p Hin) as [H1 H2].
    apply (finite_terms t c p H1 H2). }
  destruct (sum_pairs_finite
              (fun c p => vegaTerm (quantity (contract c)) c p) pairs)
    as [v Ev].
  { intros c p Hin. destruct (Hterms c p Hin) as [H1 H2].
    apply (finite_terms t c p H1 H2). }
  destruct (sum_pairs_finite
              (fun c p => rhoTerm (quantity (contract c)) c p) pairs)
    as [rh Erh].
  { intros c p Hin. destruct (Hterms c p Hin) as [H1 H2].
    apply (finite_terms t c p H1 H2). }
  rewrite Ed, Eg, Eth, Ev, Erh. cbn [add neg].
  split; [reflexivity |]. apply Fin_eq. ring.
Qed.

Lemma pnl_reconciles_witness :
  let position (s q : R) :=
    mkMetrics
      (mkOption "X" Call (Fin s) (Fin 100) (Fin 1) (Fin (1 / 5))
         (Fin (1 / 20)) (Fin q))
      (Fin 10)
      (mkGreeks (Fin (3 / 5)) (Fin (1 / 50)) (Fin (-6)) (Fin 37) (Fin 53))
      (Fin (10 * q)) in
  let cur := mkPortfolio [position 102 3] (Fin 36) zeroGreeks in
  let prev := mkPortfolio [position 100 3] (Fin 30) zeroGreeks in
  exists att : PnLComponents,
    pnlAttribution cur (Some prev) (Some (Fin 1)) = Normal (Some att)
    /\ total att = Fin (36 - 30)
    /\ (pnl_delta att + pnl_gamma att + pnl_theta att + pnl_vega att
        + pnl_rho att + unexplained att)%num
       = total att.
Proof.
  cbv zeta. apply pnl_reconciles; try reflexivity.
  - constructor; [| constructor]. split; [| split].
    + exists 102, 1, (1 / 5), (1 / 20). repeat split; reflexivity.
    + exists 3. reflexivity.
    + exists (3 / 5), (1 / 50), (-6), 37, 53. reflexivity.
  - constructor; [| constructor]. split; [| split].
    + exists 100, 1, (1 / 5), (1 / 20). repeat split; reflexivity.
    + exists 3. reflexivity.
    + exists (3 / 5), (1 / 50), (-6), 37, 53. reflexivity.
Defined.

(** Attributing a finite snapshot against itself: the delta, gamma, vega
    and rho components and the total are zero, the theta component is the
    time decay over the elapsed days, and the unexplained residual is its
    opposite. *)
Theorem pnl_of_unchanged_snapshot (p : Portfolio) (t a : R) :
  Forall finite_position (options p) -> portfolioValue p = Fin a ->
  exists th : R,
    pnlAttribution p (Some p) (Some (Fin t))
    = Normal (Some {| pnl_delta := Fin 0; pnl_gamma := Fin 0;
                      pnl_theta := Fin th; pnl_vega := Fin 0;
                      pnl_rho := Fin 0; unexplained := Fin (- th);
                      total := Fin 0 |}).
Proof.
  intros Hp Ea. rewrite pnlAttribution_pairs.
  unfold attributionOf, elapsed. cbv zeta. rewrite Ea. cbn [sub add neg].
  set (pairs := combine (options p) (options p)).
  assert (Hsame : forall c q, In (c, q) pairs -> c = q /\ finite_position c).
  { intros c q Hin. destruct (in_combine_same _ _ _ Hin) as [E Hc].
    split; [exact E |]. rewrite Forall_forall in Hp. apply Hp. exact Hc. }
  assert (Ed : sum_pairs (fun c q => deltaTerm (quantity (contract c)) c q)
                 pairs = Fin 0).
  { apply sum_pairs_zero. intros c q Hin.
    destruct (Hsame c q Hin) as [<- Hf].
    destruct Hf as ((s & tm & v & r & Es & _ & Ev & Er) & (qq & Eq)
                    & (d & g & th & vg & rh & Eg)).
    unfold deltaTerm. rewrite Es, Eq, Eg. cbn. apply Fin_eq. ring. }
  assert (Eg : sum_pairs (fun c q => gammaTerm (quantity (contract c)) c q)
                 pairs = Fin 0).
  { apply sum_pairs_zero. intros c q Hin.
    destruct (Hsame c q Hin) as [<- Hf].
    destruct Hf as ((s & tm & v & r & Es & _ & Ev & Er) & (qq & Eq)
                    & (d & g & th & vg & rh & Eg)).
    unfold gammaTerm. rewrite Es, Eq, Eg. cbn. apply Fin_eq. ring. }
  assert (Ev : sum_pairs (fun c q => vegaTerm (quantity (contract c)) c q)
                 pairs = Fin 0).
  { apply sum_pairs_zero. intros c q Hin.
    destruct (Hsame c q Hin) as [<- Hf].
    destruct Hf as ((s & tm & v & r & Es & _ & Ev & Er) & (qq & Eq)
                    & (d & g & th & vg & rh & Eg')).
    unfold vegaTerm. rewrite Ev, Eq, Eg'. cbn. apply Fin_eq. ring. }
  assert (Er : sum_pairs (fun c q => rhoTerm (quantity (contract c)) c q)
                 pairs = Fin 0).
  { apply sum_pairs_zero. intros c q Hin.
    destruct (Hsame c q Hin) as [<- Hf].
    destruct Hf as ((s & tm & v & r & Es & _ & Ev' & Er) & (qq & Eq)
                    & (d & g & th & vg & rh & Eg')).
    unfold rhoTerm. rewrite Er, Eq, Eg'. cbn. apply Fin_eq. ring. }
  destruct (sum_pairs_finite
              (fun c q => thetaTerm (Fin t) (quantity (contract c)) q) pairs)
    as [th Eth].
  { intros c q Hin. destruct (Hsame c q Hin) as [<- Hf].
    apply (finite_terms t c c Hf Hf). }
  exists th. rewrite Ed, Eg, Ev, Er, Eth. cbn [add neg].
  f_equal. f_equal. f_equal; apply Fin_eq; ring.
Qed.

Lemma pnl_of_unchanged_snapshot_witness :
  let p :=
    mkPortfolio
      [mkMetrics
         (mkOption "X" Call (Fin 100) (Fin 100) (Fin 1) (Fin (1 / 5))
            (Fin (1 / 20)) (Fin 3))
         (Fin 10)
         (mkGreeks (Fin (3 / 5)) (Fin (1 / 50)) (Fin (-6)) (Fin 37) (Fin 53))
         (Fin 30)]
      (Fin 30) zeroGreeks in
  exists th : R,
    pnlAttribution p (Some p) (Some (Fin 1))
    = Normal (Some {| pnl_delta := Fin 0; pnl_gamma := Fin 0;
                      pnl_theta := Fin th; pnl_vega := Fin 0;
                      pnl_rho := Fin 0; unexplained := Fin (- th);
                      total := Fin 0 |}).
Proof.
  cbv zeta. apply pnl_of_unchanged_snapshot with (a := 30);
    [| reflexivity].
  constructor; [| constructor]. split; [| split].
  - exists 100, 1, (1 / 5), (1 / 20). repeat split; reflexivity.
  - exists 3. reflexivity.
  - exists (3 / 5), (1 / 50), (-6), 37, 53. reflexivity.
Defined.

(** ** The interpolator on any array and any query *)

Lemma bracket_loop_range (arr : list num) (v : num) (fuel : nat) (i : Z) :
  (0 <= i <= Z.max 0 (length_of arr - 1))%Z ->
  (i <= bracket_loop fuel arr v i <= Z.max 0 (length_of arr - 1))%Z.
Proof.
  revert i. induction fuel as [| fuel IH]; intros i Hi.
  - simpl. lia.
  - simpl. destruct (Z.ltb_spec i (length_of arr - 1)) as [Hlt | Hge].
    + cbn [andb]. destruct (get arr (i + 1) <=? v)%num; [| lia].
      specialize (IH (i + 1)%Z ltac:(lia)). lia.
    + cbn [andb]. lia.
Qed.

(** Whatever the array and the query (NaN included), the bracketing loop
    leaves within [arr.length] iterations, at an index between [0] and
    the last index, where its condition is false. *)
Theorem bracket_index_in_range (arr : list num) (v : num) :
  let i := bracket arr v in
  (0 <= i <= Z.max 0 (length_of arr - 1))%Z
  /\ (i <? length_of arr - 1)%Z && (get arr (i + 1) <=? v)%num = false
  /\ forall extra : nat,
       bracket_loop (List.length arr + extra) arr v 0 = i.
Proof.
  cbv zeta. split; [| split].
  - unfold bracket.
    pose proof (bracket_loop_range arr v (List.length arr) 0 ltac:(lia)).
    lia.
  - apply bracket_exit.
  - apply bracket_enough_fuel.
Qed.

Lemma sort_insert_length (cmp : num -> num -> num) (x : num)
  (l : list num) :
  List.length (sort_insert cmp x l) = S (List.length l).
Proof.
  induction l as [| y l IH]; simpl; [reflexivity |].
  destruct (cmp x y <? 0)%num; simpl; [reflexivity | rewrite IH; reflexivity].
Qed.

Lemma sort_length (cmp : num -> num -> num) (l : list num) :
  List.length (sort cmp l) = List.length l.
Proof.
  unfold sort.
  assert (H : forall acc,
             List.length
               (fold_left (fun sorted x => sort_insert cmp x sorted) l acc)
             = (List.length l + List.length acc)%nat).
  { induction l as [| x l IH]; intros acc; simpl; [reflexivity |].
    rewrite IH, sort_insert_length. lia. }
  rewrite H. simpl. lia.
Qed.

Lemma get_cell_in_range (rows : list (list num)) (j i : Z) :
  (0 <= j < Z.of_nat (List.length rows))%Z ->
  exists v, get_cell rows j i = Normal v.
Proof.
  intros Hj. unfold get_cell, get_row.
  destruct (Z.ltb_spec j 0); [lia |].
  destruct (nth_error rows (Z.to_nat j)) as [row |] eqn:E.
  - eexists. reflexivity.
  - apply nth_error_None in E. lia.
Qed.

(** The grid built from no row makes every query throw a TypeError; the
    grid built from at least one row answers every query, whatever the
    numbers in the rows and in the query, without throwing. *)
Theorem interpolateVol_throws_only_on_empty_grid (data : list VolRow)
  (strike maturity : num) :
  match data with
  | [] =>
      interpolateVol strike maturity (buildSurface data)
      = Throw "TypeError: Cannot read properties of undefined"
  | _ :: _ =>
      exists v : num,
        interpolateVol strike maturity (buildSurface data) = Normal v
  end.
Proof.
  destruct data as [| d data]; [reflexivity |].
  set (g := buildSurface (d :: data)).
  assert (Hlen : List.length (volatilities g)
                 = List.length (maturities g)).
  { unfold g, buildSurface. cbn [volatilities maturities].
    apply length_map. }
  assert (Hpos : (0 < List.length (maturities g))%nat).
  { unfold g, buildSurface. cbn [maturities]. rewrite sort_length.
    cbn [map set_values List.length]. lia. }
  pose proof (bracket_loop_range (maturities g) maturity
                (List.length (maturities g)) 0 ltac:(lia)) as Hj1.
  fold (bracket (maturities g) maturity) in Hj1.
  unfold length_of in Hj1.
  assert (Hj1' : (0 <= bracket (maturities g) maturity
                  < Z.of_nat (List.length (volatilities g)))%Z)
    by (rewrite Hlen; lia).
  assert (Hj2' : (0 <= upper_index (maturities g)
                         (bracket (maturities g) maturity)
                  < Z.of_nat (List.length (volatilities g)))%Z).
  { unfold upper_index, length_of. rewrite Hlen. lia. }
  unfold interpolateVol.
  destruct (get_cell_in_range (volatilities g) _
              (bracket (strikes g) strike) Hj1') as [v11 E11].
  destruct (get_cell_in_range (volatilities g) _
              (upper_index (strikes g) (bracket (strikes g) strike)) Hj1')
    as [v12 E12].
  destruct (get_cell_in_range (volatilities g) _
              (bracket (strikes g) strike) Hj2') as [v21 E21].
  destruct (get_cell_in_range (volatilities g) _
              (upper_index (strikes g) (bracket (strikes g) strike)) Hj2')
    as [v22 E22].
  rewrite E11, E12, E21, E22. cbn [bind].
  eexists. reflexivity.
Qed.




Lemma bracket_in_cell (ks : list R) (v : R) (i : nat) :
  increasing ks -> (S i < List.length ks)%nat ->
  nth i ks 0 <= v < nth (S i) ks 0 ->
  bracket (map Fin ks) (Fin v) = Z.of_nat i.
Proof.
  intros Hinc Hi [Hlo Hhi].
  assert (Hne : ks <> []) by (destruct ks; simpl in *; [lia | congruence]).
  destruct (bracket_spec ks v Hne) as (n & Hb & Hn & Hle & Hx).
  rewrite Hb. f_equal.
  destruct (Nat.lt_trichotomy n i) as [H | [H | H]]; [| exact H |].
  - exfalso. specialize (Hx ltac:(lia)).
    destruct (Nat.eq_dec (S n) i) as [E | E].
    + rewrite E in Hx. lra.
    + pose proof (Hinc (S n) i ltac:(lia)). lra.
  - exfalso. specialize (Hle n ltac:(lia)).
    destruct (Nat.eq_dec n (S i)) as [E | E].
    + rewrite E in Hle. lra.
    + pose proof (Hinc (S i) n ltac:(lia)). lra.
Qed.

(** Along a grid line of maturity [maturities[j]], between two adjacent
    strikes, the result is the straight line through the two stored
    volatilities. *)
Theorem interpolation_linear_between_strikes (data : VolSurfaceData)
  (ks ms : list R) (cell : nat -> nat -> R) (strike : R) (i j : nat) :
  grid_ok data ks ms cell ->
  (S i < List.length ks)%nat -> (j < List.length ms)%nat ->
  nth i ks 0 <= strike < nth (S i) ks 0 ->
  interpolateVol (Fin strike) (Fin (nth j ms 0)) data
  = Normal (Fin (cell j i
                 + (cell j (S i) - cell j i) * (strike - nth i ks 0)
                   / (nth (S i) ks 0 - nth i ks 0))).
Proof.
  intros Hok Hi Hj Hs.
  pose proof Hok as (_ & _ & Hik & Him & _).
  rewrite (interpolateVol_Fin data ks ms cell strike (nth j ms 0) i j Hok
             (bracket_in_cell ks strike i Hik Hi Hs) ltac:(lia)
             (bracket_at_grid_point ms j Him Hj) Hj).
  cbv zeta. f_equal. apply Fin_eq.
  unfold bilinear, guarded_den, upper_of.
  destruct (Nat.ltb_spec (S i) (List.length ks)) as [_ | H]; [| lia].
  replace (Nat.min (S i) (List.length ks - 1)) with (S i) by lia.
  unfold Rdiv. ring.
Qed.

Lemma interpolation_linear_between_strikes_witness :
  interpolateVol (Fin 105) (Fin 1) sample_surface
  = Normal (Fin (0.2 + (0.3 - 0.2) * (105 - 100) / (110 - 100))).
Proof.
  apply (interpolation_linear_between_strikes sample_surface [100; 110]
           [1; 2] sample_cell 105 0 0 sample_grid_ok).
  - simpl. lia.
  - simpl. lia.
  - simpl. lra.
Defined.

(** ** What the grid builder stores *)

Lemma stored_vol_first_match (pre post : list (R * R * R)) (r : R * R * R)
  (k m : R) :
  (forall x, In x pre -> ~ (fst (fst x) = k /\ snd (fst x) = m)) ->
  fst (fst r) = k -> snd (fst r) = m ->
  stored_vol (pre ++ r :: post) k m = snd r.
Proof.
  intros Hpre Hk Hm. unfold stored_vol.
  induction pre as [| x pre IH]; cbn [app find].
  - rewrite (proj2 (Reqb_spec _ _) Hk), (proj2 (Reqb_spec _ _) Hm).
    reflexivity.
  - destruct (Reqb (fst (fst x)) k && Reqb (snd (fst x)) m) eqn:E.
    + apply andb_prop in E. destruct E as [E1 E2].
      apply Reqb_spec in E1. apply Reqb_spec in E2.
      exfalso. apply (Hpre x (or_introl eq_refl)). auto.
    + apply IH. intros y Hy. apply Hpre. right. exact Hy.
Qed.

Lemma stored_vol_no_match (rows : list (R * R * R)) (k m : R) :
  (forall x, In x rows -> ~ (fst (fst x) = k /\ snd (fst x) = m)) ->
  stored_vol rows k m = 0.
Proof.
  intros H. unfold stored_vol.
  induction rows as [| x rows IH]; cbn [find]; [reflexivity |].
  destruct (Reqb (fst (fst x)) k && Reqb (snd (fst x)) m) eqn:E.
  - apply andb_prop in E. destruct E as [E1 E2].
    apply Reqb_spec in E1. apply Reqb_spec in E2.
    exfalso. apply (H x (or_introl eq_refl)). auto.
  - apply IH. intros y Hy. apply H. right. exact Hy.
Qed.

(** The grid built from rows of finite numbers: both axes are strictly
    increasing and hold exactly the strikes and the maturities of the
    rows; the table has one row per maturity and one column per strike;
    the cell of a strike and a maturity holds the volatility of the first
    row with that pair, and [0] when no row has it. *)
Theorem built_grid_invariants (rows : list (R * R * R)) :
  let g := buildSurface (finite_rows rows) in
  exists ks ms : list R,
    strikes g = map Fin ks /\ maturities g = map Fin ms
    /\ increasing ks /\ increasing ms
    /\ (forall x, In x ks <-> exists r, In r rows /\ fst (fst r) = x)
    /\ (forall x, In x ms <-> exists r, In r rows /\ snd (fst r) = x)
    /\ List.length (volatilities g) = List.length ms
    /\ Forall (fun row => List.length row = List.length ks) (volatilities g)
    /\ (forall j i : nat,
           (j < List.length ms)%nat -> (i < List.length ks)%nat ->
           get_cell (volatilities g) (Z.of_nat j) (Z.of_nat i)
           = Normal (Fin (stored_vol rows (nth i ks 0) (nth j ms 0))))
    /\ (forall pre post r,
           rows = pre ++ r :: post ->
           (forall x, In x pre ->
                      ~ (fst (fst x) = fst (fst r)
                         /\ snd (fst x) = snd (fst r))) ->
           stored_vol rows (fst (fst r)) (snd (fst r)) = snd r)
    /\ (forall k m,
           (forall x, In x rows -> ~ (fst (fst x) = k /\ snd (fst x) = m)) ->
           stored_vol rows k m = 0).
Proof.
  cbv zeta.
  destruct (buildSurface_ok rows) as (ks & ms & Hok & Hink & Hinm).
  pose proof Hok as (Ek & Em & Hik & Him & Hcell).
  exists ks, ms.
  split; [exact Ek |]. split; [exact Em |].
  split; [exact Hik |]. split; [exact Him |].
  split.
  { intros x. rewrite Hink, in_map_iff. split.
    - intros (r & E & Hr). exists r. auto.
    - intros (r & Hr & E). exists r. auto. }
  split.
  { intros x. rewrite Hinm, in_map_iff. split.
    - intros (r & E & Hr). exists r. auto.
    - intros (r & Hr & E). exists r. auto. }
  assert (El : List.length (maturities (buildSurface (finite_rows rows)))
               = List.length ms) by (rewrite Em; apply length_map).
  assert (Es : List.length (strikes (buildSurface (finite_rows rows)))
               = List.length ks) by (rewrite Ek; apply length_map).
  split.
  { rewrite <- El. unfold buildSurface. cbn [volatilities maturities].
    apply length_map. }
  split.
  { rewrite <- Es. unfold buildSurface. cbn [volatilities strikes].
    apply Forall_forall. intros row Hin. apply in_map_iff in Hin.
    destruct Hin as (mat & <- & _). apply length_map. }
  split; [exact Hcell |].
  split.
  - intros pre post r -> Hpre.
    apply stored_vol_first_match; auto.
  - apply stored_vol_no_match.
Qed.

(** ** The portfolio file validator *)

Lemma not_positive_number_spec (v : jsval) :
  not_positive_number v = false <-> positive_number v.
Proof.
  unfold positive_number. split.
  - destruct v as [| | b | n | s |]; cbn [not_positive_number];
      try discriminate.
    intros H. exists n. split; [reflexivity |].
    destruct n as [r | | |]; try discriminate; try reflexivity.
    apply num_le_Fin_false in H. cbn [num_gt num_lt].
    apply Rltb_true. exact H.
  - intros (n & -> & Hn). cbn [not_positive_number].
    destruct n as [r | | |]; try discriminate; try reflexivity.
    apply num_le_Fin_false. cbn [num_gt num_lt] in Hn.
    unfold Rltb in Hn. destruct (Rlt_dec 0 r); [assumption | discriminate].
Qed.

Lemma check_required_first (o : PartialOption) (pre post : list field)
  (f : field) :
  (forall g, In g pre -> po_get o g <> JUndefined) ->
  po_get o f = JUndefined ->
  check_required (pre ++ f :: post) o
  = Raise (ValidationError ("Missing required field: " ++ field_name f)).
Proof.
  intros Hpre Hf. induction pre as [| g pre IH]; cbn [app check_required].
  - rewrite Hf. reflexivity.
  - pose proof (Hpre g (or_introl eq_refl)) as Hg.
    destruct (po_get o g); try contradiction;
      apply IH; intros h Hh; apply Hpre; right; exact Hh.
Qed.

Lemma check_required_ok (o : PartialOption) (fields : list field) :
  (forall g, In g fields -> po_get o g <> JUndefined) ->
  check_required fields o = Ok tt.
Proof.
  intros H. induction fields as [| g fields IH]; cbn [check_required];
    [reflexivity |].
  pose proof (H g (or_introl eq_refl)) as Hg.
  destruct (po_get o g); try contradiction;
    apply IH; intros h Hh; apply H; right; exact Hh.
Qed.

Lemma check_numeric_first (o : PartialOption) (pre post : list field)
  (f : field) :
  (forall g, In g pre -> positive_number (po_get o g)) ->
  not_positive_number (po_get o f) = true ->
  check_numeric (pre ++ f :: post) o
  = Raise (ValidationError (field_name f ++ " must be a positive number")).
Proof.
  intros Hpre Hf. induction pre as [| g pre IH]; cbn [app check_numeric].
  - rewrite Hf. reflexivity.
  - rewrite (proj2 (not_positive_number_spec _) (Hpre g (or_introl eq_refl))).
    apply IH. intros h Hh. apply Hpre. right. exact Hh.
Qed.

Lemma check_numeric_ok (o : PartialOption) (fields : list field) :
  (forall g, In g fields -> positive_number (po_get o g)) ->
  check_numeric fields o = Ok tt.
Proof.
  intros H. induction fields as [| g fields IH]; cbn [check_numeric];
    [reflexivity |].
  rewrite (proj2 (not_positive_number_spec _) (H g (or_introl eq_refl))).
  apply IH. intros h Hh. apply H. right. exact Hh.
Qed.

Lemma check_numeric_inv (o : PartialOption) (fields : list field) :
  check_numeric fields o = Ok tt ->
  forall g, In g fields -> positive_number (po_get o g).
Proof.
  induction fields as [| f fields IH]; cbn [check_numeric]; intros H g Hg.
  - destruct Hg.
  - destruct (not_positive_number (po_get o f)) eqn:E; [discriminate |].
    destruct Hg as [<- | Hg].
    + apply not_positive_number_spec. exact E.
    + apply IH; assumption.
Qed.

Lemma check_required_inv (o : PartialOption) (fields : list field) :
  check_required fields o = Ok tt ->
  forall g, In g fields -> po_get o g <> JUndefined.
Proof.
  induction fields as [| f fields IH]; cbn [check_required]; intros H g Hg.
  - destruct Hg.
  - destruct Hg as [<- | Hg].
    + destruct (po_get o f); try discriminate; intros E; discriminate.
    + apply IH; [| exact Hg]. destruct (po_get o f); try discriminate;
        exact H.
Qed.

Lemma check_raises_validation (o : PartialOption) (fields : list field) :
  (check_required fields o = Ok tt
   \/ exists m, check_required fields o = Raise (ValidationError m))
  /\ (check_numeric fields o = Ok tt
      \/ exists m, check_numeric fields o = Raise (ValidationError m)).
Proof.
  split; induction fields as [| f fields IH]; cbn; auto.
  - destruct (po_get o f); eauto.
  - destruct (not_positive_number (po_get o f)); eauto.
Qed.

Lemma bad_type_spec (v : jsval) :
  bad_type v = false <-> v = JString "Call" \/ v = JString "Put".
Proof.
  split.
  - destruct v as [| | b | n | s |]; cbn; try discriminate.
    intros H. apply andb_false_iff in H.
    destruct H as [H | H]; apply negb_false_iff in H;
      apply String.eqb_eq in H; subst; auto.
  - intros [-> | ->]; reflexivity.
Qed.

Lemma positive_number_defined (v : jsval) :
  positive_number v -> v <> JUndefined.
Proof. intros (n & -> & _). discriminate. Qed.

Lemma validateOption_spec (o : PartialOption) :
  (validateOption o = Ok true <-> well_formed o)
  /\ (validateOption o = Ok true
      \/ exists m, validateOption o = Raise (ValidationError m)).
Proof.
  unfold validateOption, well_formed. split; [split |].
  - intros H.
    destruct (check_required requiredFields o) as [[] |] eqn:Er;
      [| discriminate].
    cbn [and_then] in H.
    destruct (bad_type (po_type o)) eqn:Et; [discriminate |].
    destruct (check_numeric numericFields o) as [[] |] eqn:En;
      [| discriminate].
    split; [| split].
    + apply (check_required_inv o requiredFields Er F_ticker).
      left. reflexivity.
    + apply bad_type_spec. exact Et.
    + apply check_numeric_inv. exact En.
  - intros (Htk & Hty & Hnum).
    rewrite check_required_ok.
    + cbn [and_then]. rewrite (proj2 (bad_type_spec _) Hty).
      rewrite check_numeric_ok by exact Hnum. reflexivity.
    + intros g Hg. unfold requiredFields in Hg. cbn [In] in Hg.
      destruct Hg as [<- | [<- | Hg]].
      * exact Htk.
      * cbn [po_get]. destruct Hty as [-> | ->]; discriminate.
      * apply positive_number_defined. apply Hnum. exact Hg.
  - destruct (check_raises_validation o requiredFields) as [[Er | [m Er]] _];
      rewrite Er; cbn [and_then]; [| eauto].
    destruct (bad_type (po_type o)); [eauto |].
    destruct (check_raises_validation o numericFields) as [_ [En | [m En]]];
      rewrite En; cbn [and_then]; eauto.
Qed.

(** The validator accepts a record exactly when its ticker is present,
    its type is the string Call or Put and its six numeric fields are
    numbers above zero; otherwise it throws a ValidationError.  It never
    returns false. *)
Theorem validateOption_accepts_iff (o : PartialOption) :
  (validateOption o = Ok true <-> well_formed o)
  /\ (validateOption o = Ok true
      \/ exists m, validateOption o = Raise (ValidationError m)).
Proof. exact (validateOption_spec o). Qed.

(** A missing field is reported before anything else: the message names
    the first of the eight required fields that is undefined, whatever
    the other fields hold. *)
Theorem missing_field_reported_first (o : PartialOption)
  (pre post : list field) (f : field) :
  requiredFields = pre ++ f :: post ->
  (forall g, In g pre -> po_get o g <> JUndefined) ->
  po_get o f = JUndefined ->
  validateOption o
  = Raise (ValidationError ("Missing required field: " ++ field_name f)).
Proof.
  intros E Hpre Hf. unfold validateOption. rewrite E.
  rewrite (check_required_first o pre post f Hpre Hf). reflexivity.
Qed.

Lemma missing_field_reported_first_witness :
  validateOption
    (mkPartial (JString "AAPL") JUndefined (JNumber (Fin (-1))) JUndefined
       (JNumber (Fin 1)) (JNumber (Fin 1)) (JNumber (Fin 1))
       (JNumber (Fin 1)))
  = Raise (ValidationError "Missing required field: type").
Proof.
  apply (missing_field_reported_first _ [F_ticker]
           [F_spotPrice; F_strikePrice; F_timeToExpiry; F_volatility;
            F_riskFreeRate; F_quantity] F_type).
  - reflexivity.
  - intros g [<- | []]. discriminate.
  - reflexivity.
Defined.

(** With every field present and a good type, the first numeric field
    that is not a number above zero is named in the error; a rate of zero
    and a negative quantity are rejected in this way. *)
Theorem non_positive_number_rejected (o : PartialOption)
  (pre post : list field) (f : field) :
  (forall g, In g requiredFields -> po_get o g <> JUndefined) ->
  po_type o = JString "Call" \/ po_type o = JString "Put" ->
  numericFields = pre ++ f :: post ->
  (forall g, In g pre -> positive_number (po_get o g)) ->
  not_positive_number (po_get o f) = true ->
  validateOption o
  = Raise (ValidationError (field_name f ++ " must be a positive number")).
Proof.
  intros Hreq Hty E Hpre Hf. unfold validateOption.
  rewrite (check_required_ok o requiredFields Hreq). cbn [and_then].
  rewrite (proj2 (bad_type_spec _) Hty). rewrite E.
  rewrite (check_numeric_first o pre post f Hpre Hf). reflexivity.
Qed.

Lemma non_positive_number_rejected_witness :
  validateOption
    (mkPartial (JString "AAPL") (JString "Call") (JNumber (Fin 150))
       (JNumber (Fin 155)) (JNumber (Fin (1 / 2))) (JNumber (Fin (3 / 10)))
       (JNumber (Fin 0)) (JNumber (Fin (-10))))
  = Raise (ValidationError "riskFreeRate must be a positive number").
Proof.
  apply (non_positive_number_rejected _
           [F_spotPrice; F_strikePrice; F_timeToExpiry; F_volatility]
           [F_quantity] F_riskFreeRate).
  - intros g Hg. unfold requiredFields in Hg. cbn [In] in Hg.
    repeat (destruct Hg as [<- | Hg]; [discriminate |]). destruct Hg.
  - left. reflexivity.
  - reflexivity.
  - intros g Hg. cbn [In] in Hg.
    repeat (destruct Hg as [<- | Hg];
            [eexists; split; [reflexivity |];
             cbn [num_gt num_lt]; apply Rltb_true; lra |]).
    destruct Hg.
  - cbn. unfold num_le. cbn [num_lt num_seq].
    rewrite Rltb_false, Reqb_true by lra. reflexivity.
Defined.

(** ** The portfolio file parsers *)

Lemma checked_option_cases (row : list (string * jsval)) :
  (well_formed (option_of_row row)
   /\ checked_option row = Ok (Some (option_of_row row)))
  \/ (~ well_formed (option_of_row row)
      /\ exists m, checked_option row = Raise (ValidationError m)).
Proof.
  unfold checked_option.
  destruct (validateOption_spec (option_of_row row))
    as [Hiff [Hok | [m Hm]]].
  - left. split; [apply Hiff; exact Hok |]. rewrite Hok. reflexivity.
  - right. split.
    + intros Hwf. apply Hiff in Hwf. rewrite Hwf in Hm. discriminate.
    + exists m. rewrite Hm. reflexivity.
Qed.

Lemma map_checked_all (rows : list (list (string * jsval))) :
  Forall (fun row => well_formed (option_of_row row)) rows ->
  map_result checked_option rows = Ok (map (fun r => Some (option_of_row r)) rows).
Proof.
  induction 1 as [| row rows Hwf _ IH]; [reflexivity |].
  cbn [map_result map].
  destruct (checked_option_cases row) as [[_ E] | [Hn _]];
    [| contradiction].
  rewrite E. cbn [and_then]. rewrite IH. reflexivity.
Qed.

Lemma map_checked_some_bad (rows : list (list (string * jsval))) :
  Exists (fun row => ~ well_formed (option_of_row row)) rows ->
  exists m, map_result checked_option rows = Raise (ValidationError m).
Proof.
  induction rows as [| row rows IH]; intros H.
  - inversion H.
  - cbn [map_result].
    destruct (checked_option_cases row) as [[Hwf E] | [Hn [m E]]].
    + rewrite E. cbn [and_then].
      inversion H as [? ? Hbad | ? ? Hrest]; subst; [contradiction |].
      destruct (IH Hrest) as [m Em]. rewrite Em. cbn [and_then]. eauto.
    + rewrite E. cbn [and_then]. eauto.
Qed.

Lemma non_null_all_some {A : Type} (l : list A) :
  non_null (map Some l) = l.
Proof. induction l; simpl; congruence. Qed.

(** Parsing is all or nothing.  When every row that has at least one key
    passes the validator, the parser resolves with one option per such
    row, in order (the final filter of nulls removes nothing); as soon as
    one of them fails, the whole file is rejected with a
    ValidationError. *)
Theorem parseCSV_all_or_nothing (data : list (list (string * jsval))) :
  let rows := filter (fun row => (0 <? List.length row)%nat) data in
  (Forall (fun row => well_formed (option_of_row row)) rows ->
   parseCSV_complete data = Ok (map option_of_row rows))
  /\ (Exists (fun row => ~ well_formed (option_of_row row)) rows ->
      exists m, parseCSV_complete data = Raise (ValidationError m))
  /\ (forall out, parseCSV_complete data = Ok out ->
      out = map option_of_row rows
      /\ Forall well_formed out).
Proof.
  cbv zeta. set (rows := filter _ data). unfold parseCSV_complete.
  fold rows. split; [| split].
  - intros H. rewrite (map_checked_all rows H). cbn [and_then].
    rewrite <- (map_map option_of_row Some). rewrite non_null_all_some.
    reflexivity.
  - intros H. destruct (map_checked_some_bad rows H) as [m E].
    rewrite E. cbn [and_then]. eauto.
  - intros out Hout.
    assert (Hall : Forall (fun row => well_formed (option_of_row row)) rows).
    { apply Forall_forall. intros row Hin.
      destruct (checked_option_cases row) as [[Hwf _] | [Hn _]];
        [exact Hwf |].
      exfalso.
      destruct (map_checked_some_bad rows) as [m E].
      - apply Exists_exists. exists row. auto.
      - rewrite E in Hout. discriminate. }
    rewrite (map_checked_all rows Hall) in Hout. cbn [and_then] in Hout.
    rewrite <- (map_map option_of_row Some), non_null_all_some in Hout.
    injection Hout as <-. split; [reflexivity |].
    apply Forall_forall. intros o Ho. apply in_map_iff in Ho.
    destruct Ho as (row & <- & Hrow).
    rewrite Forall_forall in Hall. apply Hall. exact Hrow.
Qed.

Lemma filter_objects (rows : list (list (string * jsval))) :
  filter_result
    (fun item => and_then (keys_length item) (fun n => Ok (0 <? n)%nat))
    (map IObject rows)
  = Ok (map IObject (filter (fun row => (0 <? List.length row)%nat) rows)).
Proof.
  induction rows as [| row rows IH]; [reflexivity |].
  cbn [map filter_result keys_length and_then filter].
  rewrite IH. cbn [and_then].
  destruct (0 <? List.length row)%nat; reflexivity.
Qed.

Lemma filter_with_null (items : list jitem) :
  In INull items ->
  filter_result
    (fun item => and_then (keys_length item) (fun n => Ok (0 <? n)%nat))
    items
  = Raise (OtherError "Cannot convert undefined or null to object").
Proof.
  induction items as [| item items IH]; intros H; [destruct H |].
  cbn [filter_result].
  destruct H as [-> | H]; [reflexivity |].
  destruct item; cbn [keys_length and_then]; try reflexivity;
    rewrite (IH H); reflexivity.
Qed.

Lemma map_checked_validation_only (rows : list (list (string * jsval))) :
  (exists out, map_result checked_option rows = Ok out)
  \/ exists m, map_result checked_option rows = Raise (ValidationError m).
Proof.
  induction rows as [| row rows IH]; [left; eexists; reflexivity |].
  cbn [map_result].
  destruct (checked_option_cases row) as [[_ E] | [_ [m E]]]; rewrite E;
    cbn [and_then]; [| eauto].
  destruct IH as [[out E'] | [m E']]; rewrite E'; cbn [and_then]; eauto.
Qed.

(** The JSON parser: anything but an array is rejected with its own
    ValidationError; an array of objects is treated exactly as the rows of
    a CSV file are; and a [null] element makes the parser fail with the
    generic parsing error before any element is validated. *)
Theorem parseJSON_cases :
  parseJSON_data DOther
  = Raise (ValidationError "JSON must contain an array of options")
  /\ (forall rows : list (list (string * jsval)),
         parseJSON_data (DArray (map IObject rows)) = parseCSV_complete rows)
  /\ (forall items : list jitem,
         In INull items ->
         parseJSON_data (DArray items)
         = Raise (OtherError
                    "JSON parsing error: Cannot convert undefined or null to object")).
Proof.
  split; [reflexivity | split].
  - intros rows. unfold parseJSON_data, parseCSV_complete.
    rewrite filter_objects. cbn [and_then].
    set (kept := filter (fun row => (0 <? List.length row)%nat) rows).
    assert (E : map_result (fun item => checked_option (item_row item))
                  (map IObject kept)
                = map_result checked_option kept).
    { induction kept as [| row kept IH]; [reflexivity |].
      cbn [map map_result item_row]. rewrite IH. reflexivity. }
    rewrite E.
    destruct (map_checked_validation_only kept) as [[out Eo] | [m Em]].
    + rewrite Eo. reflexivity.
    + rewrite Em. reflexivity.
  - intros items H. unfold parseJSON_data.
    rewrite (filter_with_null items H). reflexivity.
Qed.



(** ** The Greeks surface *)

Lemma generateSurfacePoints_Fin (p : Portfolio) (base : OptionMetrics)
  (s : R) :
  nth_error (options p) 0 = Some base ->
  spotPrice (contract base) = Fin s ->
  generateSurfacePoints p
  = Some {| sp_strikes := map (fun i => Fin (strike_node s i)) (seq 0 40);
            sp_times := map (fun i => Fin (time_node i)) (seq 0 40) |}.
Proof.
  intros Hb Es. unfold generateSurfacePoints. rewrite Hb, Es.
  unfold Array_from. f_equal. f_equal.
  - apply map_ext. intros i. cbn [mul sub add neg].
    rewrite div_Fin by lra. reflexivity.
  - apply map_ext. intros i. cbn [mul sub add neg].
    rewrite div_Fin by lra. reflexivity.
Qed.

Lemma nth_map_seq (f : nat -> R) (n i : nat) :
  (i < n)%nat -> nth i (map f (seq 0 n)) 0 = f i.
Proof.
  intros H. rewrite (nth_indep _ 0 (f 0%nat)) by (rewrite length_map, length_seq; exact H).
  rewrite map_nth, seq_nth by exact H. reflexivity.
Qed.



(** The axes of the Greeks surface, for a first position with a finite
    positive spot: 40 strikes rising from 70% to 130% of the spot and 40
    times rising from 0.1 to 2 years. *)
Theorem surface_axes (p : Portfolio) (base : OptionMetrics) (s : R) :
  nth_error (options p) 0 = Some base ->
  spotPrice (contract base) = Fin s -> 0 < s ->
  exists ks ts : list R,
    generateSurfacePoints p
    = Some {| sp_strikes := map Fin ks; sp_times := map Fin ts |}
    /\ List.length ks = 40%nat /\ List.length ts = 40%nat
    /\ increasing ks /\ increasing ts
    /\ nth 0 ks 0 = 0.7 * s /\ nth 39 ks 0 = 1.3 * s
    /\ nth 0 ts 0 = 0.1 /\ nth 39 ts 0 = 2.
Proof.
  intros Hb Es Hs.
  exists (map (strike_node s) (seq 0 40)), (map time_node (seq 0 40)).
  split.
  { rewrite (generateSurfacePoints_Fin p base s Hb Es).
    rewrite !map_map. reflexivity. }
  split; [rewrite length_map, length_seq; reflexivity |].
  split; [rewrite length_map, length_seq; reflexivity |].
  assert (H39 : INR 39 = 39) by (simpl; lra).
  split; [| split].
  - intros a b Hab. rewrite length_map, length_seq in Hab.
    rewrite !nth_map_seq by lia. unfold strike_node.
    assert (INR a < INR b) by (apply lt_INR; lia). nra.
  - intros a b Hab. rewrite length_map, length_seq in Hab.
    rewrite !nth_map_seq by lia. unfold time_node.
    assert (INR a < INR b) by (apply lt_INR; lia). nra.
  - rewrite !nth_map_seq by lia. unfold strike_node, time_node.
    rewrite H39. cbn [INR]. repeat split; lra.
Qed.

Lemma surface_axes_witness :
  let p :=
    calculatePortfolioMetrics
      [mkOption "X" Call (Fin 100) (Fin 100) (Fin 1) (Fin (1 / 5))
         (Fin (1 / 20)) (Fin 3)] in
  exists ks ts : list R,
    generateSurfacePoints p
    = Some {| sp_strikes := map Fin ks; sp_times := map Fin ts |}
    /\ List.length ks = 40%nat /\ List.length ts = 40%nat
    /\ increasing ks /\ increasing ts
    /\ nth 0 ks 0 = 0.7 * 100 /\ nth 39 ks 0 = 1.3 * 100
    /\ nth 0 ts 0 = 0.1 /\ nth 39 ts 0 = 2.
Proof.
  cbv zeta.
  apply (surface_axes _
           (calculateOptionMetrics
              (mkOption "X" Call (Fin 100) (Fin 100) (Fin 1) (Fin (1 / 5))
                 (Fin (1 / 20)) (Fin 3)))
           100).
  - reflexivity.
  - reflexivity.
  - lra.
Defined.




(** ** The statistics of a surface *)







Lemma fold_sum_Fin (f : R -> R) (vs : list R) (a : R) :
  fold_left (fun x y => (x + Fin (f y))%num) vs (Fin a)
  = Fin (fold_left (fun x y => x + f y) vs a).
Proof.
  revert a. induction vs as [| v vs IH]; intros a; [reflexivity |].
  cbn [fold_left add]. apply IH.
Qed.





